(** * AVLdb: the AVL index of [AVL_Database.cpp] and its range query

    A shallow embedding of [src/AVL_Database.cpp].  Nodes are an inductive
    tree; a pointer to a node of the tree owned by [root] is the path that
    leads to it from the root, so that the pointer comparisons of
    [deleteNode] and [deleteHelper] ([current != child],
    [parent->left == nodeToDelete]) are comparisons of paths.  The C++ [int]
    fields (record values, cached heights, counters) are integers of [Z];
    signed overflow is undefined in C++, and a property that bounds a
    counter over a whole call sequence is stated for sequences of at most
    [INT_MAX] calls, on which no counter leaves the range of [int].  A
    [Record *] held by a node is modelled by the record it points to; the
    [Record *] that [search] returns is a [RecordPtr], which tells a record
    of the tree from the dead local of a miss. *)

From Stdlib Require Import ZArith List Bool String Lia.
From Stdlib Require Import Structures.OrderedTypeEx Sorting.Permutation.
Import ListNotations.
Open Scope Z_scope.

(** ** Data model *)

(** [struct Record { std::string key; int value; }] *)
Record DbRecord : Type := mkRecord { key : string; value : Z }.

(** [struct AVLNode { Record *record; AVLNode *left, *right; int height; }];
    [nullptr] is the absent node. *)
Inductive AVLNode : Type :=
| nullptr : AVLNode
| Node (record : DbRecord) (left right : AVLNode) (height : Z) : AVLNode.

(** [class AVLTree]: the three data members set by the constructor
    [AVLTree() : root(nullptr), nodeCount(0), searchComparisonCount(0)]. *)
Record AVLTree : Type := mkTree {
  root : AVLNode;
  nodeCount : Z;
  searchComparisonCount : Z
}.

Definition AVLTree_new : AVLTree := mkTree nullptr 0 0.

(** [new AVLNode(r)]: no children, height 1. *)
Definition AVLNode_new (r : DbRecord) : AVLNode := Node r nullptr nullptr 1.

(** [operator<] and [operator>] of [std::string]: lexicographic order on the
    code units, [a > b] being [b < a]. *)
Definition key_lt (a b : string) : bool := String.ltb a b.
Definition key_gt (a b : string) : bool := String.ltb b a.

(** ** Pointers into the tree *)

Inductive dir : Type := L | R.

(** A non-null [AVLNode *] into the tree: the path from the root. *)
Definition ptr : Type := list dir.

Definition dir_eqb (a b : dir) : bool :=
  match a, b with
  | L, L | R, R => true
  | _, _ => false
  end.

Fixpoint ptr_eqb (p q : ptr) : bool :=
  match p, q with
  | [], [] => true
  | a :: p', b :: q' => dir_eqb a b && ptr_eqb p' q'
  | _, _ => false
  end.

(** The node a pointer designates ([nullptr] when the path leaves the tree). *)
Fixpoint deref (t : AVLNode) (p : ptr) {struct p} : AVLNode :=
  match p, t with
  | [], _ => t
  | L :: p', Node _ l _ _ => deref l p'
  | R :: p', Node _ _ r _ => deref r p'
  | _ :: _, nullptr => nullptr
  end.

(** In-place modification of the node a pointer designates. *)
Fixpoint store (t : AVLNode) (p : ptr) (f : AVLNode -> AVLNode) {struct p} : AVLNode :=
  match p, t with
  | [], _ => f t
  | L :: p', Node rc l r h => Node rc (store l p' f) r h
  | R :: p', Node rc l r h => Node rc l (store r p' f) h
  | _ :: _, nullptr => nullptr
  end.

(** [n->left = x], [n->right = x], [n->record = rc]. *)
Definition set_left (x : AVLNode) (n : AVLNode) : AVLNode :=
  match n with
  | nullptr => nullptr
  | Node rc _ r h => Node rc x r h
  end.

Definition set_right (x : AVLNode) (n : AVLNode) : AVLNode :=
  match n with
  | nullptr => nullptr
  | Node rc l _ h => Node rc l x h
  end.

Definition set_record (rc : DbRecord) (n : AVLNode) : AVLNode :=
  match n with
  | nullptr => nullptr
  | Node _ l r h => Node rc l r h
  end.

Definition node_left (n : AVLNode) : AVLNode :=
  match n with
  | nullptr => nullptr
  | Node _ l _ _ => l
  end.

Definition node_right (n : AVLNode) : AVLNode :=
  match n with
  | nullptr => nullptr
  | Node _ _ r _ => r
  end.

Definition is_null (n : AVLNode) : bool :=
  match n with
  | nullptr => true
  | Node _ _ _ _ => false
  end.

(** ** AVLTree: heights and rotations *)

(** [AVLTree::height]: the cached height, 0 for [nullptr]. *)
Definition height (node : AVLNode) : Z :=
  match node with
  | nullptr => 0
  | Node _ _ _ h => h
  end.

(** [AVLTree::updateHeight] *)
Definition updateHeight (node : AVLNode) : AVLNode :=
  match node with
  | nullptr => nullptr
  | Node rc l r _ => Node rc l r (1 + Z.max (height l) (height r))
  end.

(** [AVLTree::getBalance] *)
Definition getBalance (node : AVLNode) : Z :=
  match node with
  | nullptr => 0
  | Node _ l r _ => height l - height r
  end.

(** [AVLTree::rotateRight]: identity when [y] or [y->left] is null. *)
Definition rotateRight (y : AVLNode) : AVLNode :=
  match y with
  | Node yrc (Node lrc ll lr lh) yr yh =>
      let y' := updateHeight (Node yrc lr yr yh) in
      updateHeight (Node lrc ll y' lh)
  | _ => y
  end.

(** [AVLTree::rotateLeft]: identity when [x] or [x->right] is null. *)
Definition rotateLeft (x : AVLNode) : AVLNode :=
  match x with
  | Node xrc xl (Node rrc rl rr rh) xh =>
      let x' := updateHeight (Node xrc xl rl xh) in
      updateHeight (Node rrc x' rr rh)
  | _ => x
  end.

(** [AVLTree::reBalance] *)
Definition reBalance (node : AVLNode) : AVLNode :=
  match updateHeight node with
  | nullptr => nullptr
  | Node rc l r h as node1 =>
      let balance := getBalance node1 in
      if (1 <? balance) && (0 <=? getBalance l) then rotateRight node1
      else if (balance <? -1) && (getBalance r <=? 0) then rotateLeft node1
      else if (1 <? balance) && (getBalance l <? 0)
           then rotateRight (Node rc (rotateLeft l) r h)
      else if (balance <? -1) && (0 <? getBalance r)
           then rotateLeft (Node rc l (rotateRight r) h)
      else node1
  end.

(** ** AVLTree: search *)

(** [AVLTree::minValueNode], called on the non-null node [node] that [p]
    points to: follows [left] while it is not null. *)
Fixpoint minValueNode (node : AVLNode) (p : ptr) : ptr :=
  match node with
  | Node _ (Node _ _ _ _ as l) _ _ => minValueNode l (p ++ [L])
  | _ => p
  end.

(** [AVLTree::searchHelper]: the pointer to the first node met on the descent
    whose key is neither greater nor less than [key]; [None] is [nullptr].
    The [value] argument is not read. *)
Fixpoint searchHelper (node : AVLNode) (k : string) (v : Z) : option ptr :=
  match node with
  | nullptr => None
  | Node rc l r _ =>
      if key_lt k (key rc) then option_map (cons L) (searchHelper l k v)
      else if key_gt k (key rc) then option_map (cons R) (searchHelper r k v)
      else Some []
  end.

(** The evaluations of [operator<] and [operator>] on keys that the loop of
    [searchHelper] performs. *)
Fixpoint searchHelper_comparisons (node : AVLNode) (k : string) : Z :=
  match node with
  | nullptr => 0
  | Node rc l r _ =>
      if key_lt k (key rc) then 1 + searchHelper_comparisons l k
      else if key_gt k (key rc) then 2 + searchHelper_comparisons r k
      else 2
  end.

(** The nodes that the loop of [searchHelper] visits. *)
Fixpoint searchHelper_visited (node : AVLNode) (k : string) : Z :=
  match node with
  | nullptr => 0
  | Node rc l r _ =>
      if key_lt k (key rc) then 1 + searchHelper_visited l k
      else if key_gt k (key rc) then 1 + searchHelper_visited r k
      else 1
  end.

(** [found->record] *)
Definition record_at (t : AVLNode) (p : ptr) : option DbRecord :=
  match deref t p with
  | nullptr => None
  | Node rc _ _ _ => Some rc
  end.

(** The record [Record("", 0)] that [search] builds when nothing is found. *)
Definition sentinel : DbRecord := mkRecord EmptyString 0.

(** The [Record *] that [search] returns.  On a hit it is the record of a
    node of the tree.  On a miss [search] builds [Record record("", 0)] as a
    local of the block of the [if], wraps its address in a new node and
    returns that address: the local is destroyed when the block ends, so
    the pointer returned is dangling.  [dangling built] records what the
    dead local was built as. *)
Inductive RecordPtr : Type :=
| stored (rc : DbRecord)
| dangling (built : DbRecord).

(** Reading through the pointer: defined for the record of a node only. *)
Definition read (p : RecordPtr) : option DbRecord :=
  match p with
  | stored rc => Some rc
  | dangling _ => None
  end.

(** [AVLTree::search]: a member function that is not [const]; it returns the
    pointer and the tree it leaves, in which it writes no member.  The node
    that [searchHelper] returns is a node of the tree, so the inner [None]
    does not arise. *)
Definition search (t : AVLTree) (k : string) (v : Z) : RecordPtr * AVLTree :=
  match searchHelper (root t) k v with
  | None => (dangling sentinel, t)
  | Some found =>
      match record_at (root t) found with
      | Some rc => (stored rc, t)
      | None => (dangling sentinel, t)
      end
  end.

(** Modelled from the spec: [getLastSearchComparisons] is declared in
    [AVL_Database.hpp], which is not among the sources; the spec lists it as
    an observational getter of the comparison counter. *)
Definition getLastSearchComparisons (t : AVLTree) : Z := searchComparisonCount t.

(** ** AVLTree: insertion *)

(** [AVLTree::insertHelper]: a key equal to the key of [node] takes neither
    branch, and only the height update and [reBalance] run. *)
Fixpoint insertHelper (node : AVLNode) (record : DbRecord) : AVLNode :=
  match node with
  | nullptr => AVLNode_new record
  | Node rc l r h =>
      let node1 :=
        if key_lt (key record) (key rc) then Node rc (insertHelper l record) r h
        else if key_gt (key record) (key rc) then Node rc l (insertHelper r record) h
        else Node rc l r h in
      reBalance (updateHeight node1)
  end.

(** [AVLTree::insert] *)
Definition insert (t : AVLTree) (record : DbRecord) : AVLTree :=
  match root t with
  | nullptr =>
      mkTree (AVLNode_new record) (nodeCount t + 1) (searchComparisonCount t + 1)
  | Node _ _ _ _ =>
      mkTree (insertHelper (root t) record) (nodeCount t + 1) (searchComparisonCount t)
  end.

(** ** AVLTree: deletion *)

(** The loop of [AVLTree::deleteHelper]: [current] is the node that [cur]
    points to, [ckey] is [child->record->key]. *)
Fixpoint deleteHelper_loop (current : AVLNode) (cur child : ptr) (ckey : string)
    (parent : option ptr) : option ptr :=
  match current with
  | nullptr => parent
  | Node rc l r _ =>
      if ptr_eqb cur child then parent
      else if key_lt ckey (key rc)
           then deleteHelper_loop l (cur ++ [L]) child ckey (Some cur)
           else deleteHelper_loop r (cur ++ [R]) child ckey (Some cur)
  end.

(** [AVLTree::deleteHelper]: the parent of [child], found by a descent from
    the root on the key of [child]. *)
Definition deleteHelper (rt : AVLNode) (child : ptr) : option ptr :=
  match record_at rt child with
  | None => None
  | Some crec => deleteHelper_loop rt [] child (key crec) None
  end.

(** [if (parent->left == child) parent->left = x; else parent->right = x;]
    with [parent = deleteHelper(root, child)].  [child] is not the root, so
    the loop of [deleteHelper] runs at least once and [parent] is not null. *)
Definition replace_child (rt : AVLNode) (child : ptr) (x : AVLNode) : AVLNode :=
  match deleteHelper rt child with
  | None => rt
  | Some parent =>
      if ptr_eqb (parent ++ [L]) child
      then store rt parent (set_left x)
      else store rt parent (set_right x)
  end.

(** The three removal cases of [AVLTree::deleteNode], on the node
    [Node rc l r h] that [nodeToDelete] points to. *)
Definition remove_node (rt : AVLNode) (nodeToDelete : ptr) (l r : AVLNode) : AVLNode :=
  if is_null l && is_null r then
    if ptr_eqb nodeToDelete [] then nullptr
    else replace_child rt nodeToDelete nullptr
  else if is_null l || is_null r then
    let child := if is_null l then r else l in
    if ptr_eqb nodeToDelete [] then child
    else replace_child rt nodeToDelete child
  else
    let minNode := minValueNode r (nodeToDelete ++ [R]) in
    match record_at rt minNode with
    | None => rt
    | Some minrec =>
        let rt1 := store rt nodeToDelete (set_record minrec) in
        replace_child rt1 minNode (node_right (deref rt1 minNode))
    end.

(** [AVLTree::deleteNode] *)
Definition deleteNode (t : AVLTree) (k : string) (v : Z) : AVLTree :=
  match root t with
  | nullptr => t
  | Node _ _ _ _ =>
      match searchHelper (root t) k v with
      | None => t
      | Some nodeToDelete =>
          match deref (root t) nodeToDelete with
          | nullptr => t
          | Node rc l r _ =>
              if negb (value rc =? v) then t
              else
                let root1 := remove_node (root t) nodeToDelete l r in
                mkTree (reBalance (updateHeight root1)) (nodeCount t - 1)
                       (searchComparisonCount t)
          end
      end
  end.

(** ** IndexedDatabase *)

Module IndexedDatabase.

(** [class IndexedDatabase { AVLTree index; ... }] *)
Record t : Type := mk { index : AVLTree }.

Definition new : t := mk AVLTree_new.

Definition insert (db : t) (record : DbRecord) : t :=
  mk (insert (index db) record).

Definition search (db : t) (k : string) (v : Z) : RecordPtr * t :=
  let '(rc, ix) := search (index db) k v in (rc, mk ix).

Definition deleteRecord (db : t) (k : string) (v : Z) : t :=
  mk (deleteNode (index db) k v).

(** [rangeQueryHelper]: [result] is the vector passed by reference, and
    [push_back] appends at its end. *)
Fixpoint rangeQueryHelper (node : AVLNode) (start end_ : Z)
    (result : list DbRecord) : list DbRecord :=
  match node with
  | nullptr => result
  | Node rc l r _ =>
      let result1 :=
        if start <? value rc then rangeQueryHelper l start end_ result
        else result in
      let result2 :=
        if (start <=? value rc) && (value rc <=? end_) then result1 ++ [rc]
        else result1 in
      if value rc <? end_ then rangeQueryHelper r start end_ result2
      else result2
  end.

Definition rangeQuery (db : t) (start end_ : Z) : list DbRecord :=
  rangeQueryHelper (root (index db)) start end_ [].

(** [clearHelper]: the records released, in the post-order of the walk. *)
Fixpoint clearHelper (node : AVLNode) : list DbRecord :=
  match node with
  | nullptr => []
  | Node rc l r _ => clearHelper l ++ clearHelper r ++ [rc]
  end.

(** [clearDatabase]: releases the nodes, then [index.root = nullptr]; no
    other member of [index] is written. *)
Definition clearDatabase (db : t) : t :=
  let released := clearHelper (root (index db)) in
  mk (mkTree nullptr (nodeCount (index db)) (searchComparisonCount (index db))).

Fixpoint calculateHeight (node : AVLNode) : Z :=
  match node with
  | nullptr => 0
  | Node _ l r _ => 1 + Z.max (calculateHeight l) (calculateHeight r)
  end.

Definition getTreeHeight (db : t) : Z := calculateHeight (root (index db)).

Definition getSearchComparisons (db : t) (k : string) (v : Z) : Z * t :=
  let '(_, db1) := search db k v in
  (getLastSearchComparisons (index db1), db1).

End IndexedDatabase.

(** ** Observations used by the specification *)

(** The records stored in the tree, in symmetric order. *)
Fixpoint inorder (n : AVLNode) : list DbRecord :=
  match n with
  | nullptr => []
  | Node rc l r _ => inorder l ++ rc :: inorder r
  end.

(** The number of nodes reachable from a node. *)
Fixpoint countNodes (n : AVLNode) : Z :=
  match n with
  | nullptr => 0
  | Node _ l r _ => 1 + countNodes l + countNodes r
  end.

(** Height balance, as the specification words it:
    [|height(n.left) - height(n.right)| <= 1] at every node, a height being
    the length of the longest downward path. *)
Fixpoint balancedb (n : AVLNode) : bool :=
  match n with
  | nullptr => true
  | Node _ l r _ =>
      (Z.abs (IndexedDatabase.calculateHeight l - IndexedDatabase.calculateHeight r) <=? 1)
      && balancedb l && balancedb r
  end.

(** The same test on the cached heights that [getBalance] reads. *)
Fixpoint cached_balancedb (n : AVLNode) : bool :=
  match n with
  | nullptr => true
  | Node _ l r _ =>
      (Z.abs (getBalance n) <=? 1) && cached_balancedb l && cached_balancedb r
  end.

(** Every cached height is the recomputed one. *)
Fixpoint heights_ok (n : AVLNode) : Prop :=
  match n with
  | nullptr => True
  | Node _ l r h =>
      h = IndexedDatabase.calculateHeight n /\ heights_ok l /\ heights_ok r
  end.

Definition str_lt (a b : string) : Prop := key_lt a b = true.

(** Strictly increasing keys. *)
Fixpoint sorted_keys (ks : list string) : Prop :=
  match ks with
  | [] => True
  | k :: ks' => Forall (str_lt k) ks' /\ sorted_keys ks'
  end.

(** Search-tree order on the keys: the keys read in symmetric order are
    strictly increasing. *)
Definition bst (n : AVLNode) : Prop := sorted_keys (map key (inorder n)).

(** The calls that change the state of an [IndexedDatabase]. *)
Inductive Op : Type :=
| OpInsert (record : DbRecord)
| OpDelete (k : string) (v : Z)
| OpClear.

Definition step (db : IndexedDatabase.t) (op : Op) : IndexedDatabase.t :=
  match op with
  | OpInsert rc => IndexedDatabase.insert db rc
  | OpDelete k v => IndexedDatabase.deleteRecord db k v
  | OpClear => IndexedDatabase.clearDatabase db
  end.

Definition run (ops : list Op) (db : IndexedDatabase.t) : IndexedDatabase.t :=
  fold_left step ops db.

(** The externally observable states: those a sequence of calls produces
    from a new database. *)
Inductive reachable : IndexedDatabase.t -> Prop :=
| reachable_new : reachable IndexedDatabase.new
| reachable_step db op : reachable db -> reachable (step db op).

(** The range traversal as the specification describes it: nothing for an
    absent node; the left subtree when [value > start]; the record when
    [start <= value <= end]; the right subtree when [value < end]. *)
Fixpoint spec_traversal (n : AVLNode) (start end_ : Z) : list DbRecord :=
  match n with
  | nullptr => []
  | Node rc l r _ =>
      (if value rc >? start then spec_traversal l start end_ else [])
      ++ (if (start <=? value rc) && (value rc <=? end_) then [rc] else [])
      ++ (if value rc <? end_ then spec_traversal r start end_ else [])
  end.

(** The pruning tests of [rangeQueryHelper] all pass along the path [p]:
    [value > start] where it goes left, [value < end] where it goes right. *)
Fixpoint unpruned (n : AVLNode) (start end_ : Z) (p : ptr) : bool :=
  match p, n with
  | [], _ => true
  | L :: p', Node rc l _ _ => (start <? value rc) && unpruned l start end_ p'
  | R :: p', Node rc _ r _ => (value rc <? end_) && unpruned r start end_ p'
  | _ :: _, nullptr => false
  end.

(** The records that come before, and after, the subtree at [p] in symmetric
    order. *)
Fixpoint before (t : AVLNode) (p : ptr) {struct p} : list DbRecord :=
  match p, t with
  | L :: p', Node _ l _ _ => before l p'
  | R :: p', Node rc l r _ => inorder l ++ rc :: before r p'
  | _, _ => []
  end.

Fixpoint after (t : AVLNode) (p : ptr) {struct p} : list DbRecord :=
  match p, t with
  | L :: p', Node rc l r _ => after l p' ++ rc :: inorder r
  | R :: p', Node _ _ r _ => after r p'
  | _, _ => []
  end.

(** The descent of [deleteHelper] on the key [ckey] (left when [ckey] is
    less than the key of the node, right otherwise) follows [p] and ends on
    a node. *)
Fixpoint descends (t : AVLNode) (ckey : string) (p : ptr) : Prop :=
  match t with
  | nullptr => False
  | Node rc l r _ =>
      match p with
      | [] => True
      | d :: p' =>
          if key_lt ckey (key rc) then d = L /\ descends l ckey p'
          else d = R /\ descends r ckey p'
      end
  end.

(** The path [minValueNode] follows from a node. *)
Fixpoint min_path (n : AVLNode) : ptr :=
  match n with
  | Node _ (Node _ _ _ _ as l) _ _ => L :: min_path l
  | _ => []
  end.

(** [t'] is [t] with the one record [rc] taken out of the symmetric order,
    every other record in place, and [nodeCount] one less. *)
Definition removed (rc : DbRecord) (t t' : AVLTree) : Prop :=
  exists l1 l2,
    inorder (root t) = l1 ++ rc :: l2 /\
    inorder (root t') = l1 ++ l2 /\
    nodeCount t' = nodeCount t - 1 /\
    searchComparisonCount t' = searchComparisonCount t.

(** No stored record carries the key [k]. *)
Definition key_absent (k : string) (n : AVLNode) : Prop :=
  forall x, In x (inorder n) -> key x <> k.

(** The states reached from a new database by inserting records whose key
    is not stored yet and by [deleteRecord]. *)
Inductive counted : IndexedDatabase.t -> Prop :=
| counted_new : counted IndexedDatabase.new
| counted_insert db rc :
    counted db -> key_absent (key rc) (root (IndexedDatabase.index db)) ->
    counted (IndexedDatabase.insert db rc)
| counted_delete db k v :
    counted db -> counted (IndexedDatabase.deleteRecord db k v).

(** The AVL invariant on the cached heights: every cached height is one more
    than the larger child height, and the child heights differ by at most 1. *)
Fixpoint avl (n : AVLNode) : Prop :=
  match n with
  | nullptr => True
  | Node _ l r h =>
      avl l /\ avl r /\ h = 1 + Z.max (height l) (height r)
      /\ -1 <= height l - height r <= 1
  end.

(** Example records and call sequences. *)
Definition rec_ (k : string) (v : Z) : DbRecord := mkRecord k v.

Definition skewed_ops : list Op :=
  [ OpInsert (rec_ "d" 4); OpInsert (rec_ "b" 2); OpInsert (rec_ "f" 6);
    OpInsert (rec_ "a" 1); OpInsert (rec_ "e" 5); OpInsert (rec_ "h" 8);
    OpInsert (rec_ "i" 9) ].

Definition abc_ops : list Op :=
  [ OpInsert (rec_ "a" 1); OpInsert (rec_ "b" 2); OpInsert (rec_ "c" 3) ].

Definition abc_db : IndexedDatabase.t := run abc_ops IndexedDatabase.new.

(** The call sequences of the end-to-end scenarios of the specification. *)
Definition letters_ops : list Op :=
  map (fun k => OpInsert (rec_ k 1)) ["a"; "b"; "c"; "d"; "e"; "f"; "g"]%string.

Definition family_ops : list Op :=
  [ OpInsert (rec_ "m" 10); OpInsert (rec_ "f" 5); OpInsert (rec_ "t" 20);
    OpInsert (rec_ "c" 3); OpInsert (rec_ "h" 8); OpInsert (rec_ "p" 15);
    OpInsert (rec_ "z" 25) ].

Definition values_ops : list Op :=
  [ OpInsert (rec_ "a" 1); OpInsert (rec_ "b" 2); OpInsert (rec_ "c" 3);
    OpInsert (rec_ "d" 4); OpInsert (rec_ "e" 5) ].

(** [start <= value <= end], the test of [rangeQueryHelper] before
    [push_back]. *)
Definition in_range (start end_ : Z) (rc : DbRecord) : bool :=
  (start <=? value rc) && (value rc <=? end_).

(** Strictly increasing values. *)
Fixpoint sorted_values (vs : list Z) : Prop :=
  match vs with
  | [] => True
  | v :: vs' => Forall (Z.lt v) vs' /\ sorted_values vs'
  end.

(** The values grow with the keys: read in symmetric order, they are
    strictly increasing. *)
Definition values_increasing (n : AVLNode) : Prop :=
  sorted_values (map value (inorder n)).

(** The largest value of a 32-bit [int]. *)
Definition INT_MAX : Z := 2147483647.

(** A small left-leaning tree with consistent cached heights. *)
Definition left_chain : AVLNode :=
  Node (rec_ "c" 3) (Node (rec_ "b" 2) (AVLNode_new (rec_ "a" 1)) nullptr 2) nullptr 3.

(** * Properties *)

(** ** The order on keys *)

Lemma key_lt_spec (a b : string) : key_lt a b = true <-> String_as_OT.lt a b.
Proof.
  unfold key_lt, String.ltb. rewrite <- String_as_OT.cmp_lt.
  unfold String_as_OT.cmp. destruct (String.compare a b); split; congruence.
Qed.

Lemma key_gt_lt (a b : string) : key_gt a b = key_lt b a.
Proof. reflexivity. Qed.

Lemma key_lt_irrefl (a : string) : key_lt a a = false.
Proof.
  destruct (key_lt a a) eqn:E; [|reflexivity].
  apply key_lt_spec in E. exfalso.
  exact (String_as_OT.lt_not_eq _ _ E eq_refl).
Qed.

Lemma str_lt_trans (a b c : string) : str_lt a b -> str_lt b c -> str_lt a c.
Proof.
  unfold str_lt. rewrite !key_lt_spec. apply String_as_OT.lt_trans.
Qed.

Lemma key_lt_asym (a b : string) : key_lt a b = true -> key_lt b a = false.
Proof.
  intros H. destruct (key_lt b a) eqn:E; [|reflexivity].
  pose proof (str_lt_trans _ _ _ H E) as F. unfold str_lt in F.
  rewrite key_lt_irrefl in F. discriminate.
Qed.

(** Neither less nor greater is equal: the [else] branch of the descents. *)
Lemma key_trichotomy (a b : string) :
  key_lt a b = false -> key_gt a b = false -> a = b.
Proof.
  unfold key_lt, key_gt, String.ltb. intros H1 H2.
  rewrite String.compare_antisym in H2.
  destruct (String.compare a b) eqn:E; simpl in *; try discriminate.
  now apply String.compare_eq_iff.
Qed.

(** ** Pointers *)

Lemma ptr_eqb_eq (p q : ptr) : ptr_eqb p q = true <-> p = q.
Proof.
  revert q. induction p as [|a p IH]; intros [|b q]; simpl; try easy.
  destruct a, b; simpl; rewrite ?IH; split; congruence.
Qed.

Lemma ptr_eqb_refl (p : ptr) : ptr_eqb p p = true.
Proof. now apply ptr_eqb_eq. Qed.

Lemma ptr_eqb_app_nil (p q : ptr) :
  ptr_eqb p (p ++ q) = match q with [] => true | _ :: _ => false end.
Proof.
  induction p as [|a p IH]; simpl.
  - now destruct q.
  - rewrite IH. now destruct a.
Qed.

Lemma deref_null (p : ptr) : deref nullptr p = nullptr.
Proof. now destruct p as [|[|] p]. Qed.

Lemma deref_app (t : AVLNode) (p q : ptr) : deref t (p ++ q) = deref (deref t p) q.
Proof.
  revert t. induction p as [|[|] p IH]; intros t; destruct t; simpl; auto;
    now destruct q as [|[|] q'].
Qed.

Lemma store_app (t : AVLNode) (p q : ptr) (f : AVLNode -> AVLNode) :
  store t (p ++ q) f = store t p (fun n => store n q f).
Proof.
  revert t. induction p as [|[|] p IH]; intros t; destruct t; simpl;
    rewrite ?IH; auto.
Qed.

(** ** The range query *)

Lemma rangeQueryHelper_acc (n : AVLNode) (s e : Z) (acc : list DbRecord) :
  IndexedDatabase.rangeQueryHelper n s e acc = acc ++ spec_traversal n s e.
Proof.
  revert acc. induction n as [|rc l IHl r IHr h]; intros acc; simpl.
  - now rewrite app_nil_r.
  - rewrite Z.gtb_ltb.
    destruct (s <? value rc); destruct ((s <=? value rc) && (value rc <=? e));
      destruct (value rc <? e);
      rewrite ?IHr, ?IHl, <- ?app_assoc, ?app_nil_r; simpl; reflexivity.
Qed.

Lemma spec_traversal_In (n : AVLNode) (s e : Z) (rc : DbRecord) :
  In rc (spec_traversal n s e) <->
  exists p, record_at n p = Some rc /\ unpruned n s e p = true
            /\ s <= value rc <= e.
Proof.
  induction n as [|rc0 l IHl r IHr h]; simpl.
  - split; [easy|]. intros ([|[|] p] & H & _); discriminate H.
  - rewrite Z.gtb_ltb, !in_app_iff. split.
    + intros [H|[H|H]].
      * destruct (s <? value rc0) eqn:E; [|easy].
        apply IHl in H as (p & H1 & H2 & H3). exists (L :: p).
        simpl. rewrite ?E. auto.
      * destruct ((s <=? value rc0) && (value rc0 <=? e)) eqn:E; [|easy].
        destruct H as [<-|[]]. exists []. repeat split; try reflexivity; lia.
      * destruct (value rc0 <? e) eqn:E; [|easy].
        apply IHr in H as (p & H1 & H2 & H3). exists (R :: p).
        simpl. rewrite ?E. auto.
    + intros ([|[|] p] & H1 & H2 & H3).
      * right; left. injection H1 as <-.
        replace ((s <=? value rc0) && (value rc0 <=? e)) with true by lia.
        now left.
      * left. simpl in H2. apply andb_true_iff in H2 as [E H2]. rewrite E.
        apply IHl. now exists p.
      * right; right. simpl in H2. apply andb_true_iff in H2 as [E H2]. rewrite E.
        apply IHr. now exists p.
Qed.

Lemma run_reachable (ops : list Op) (db : IndexedDatabase.t) :
  reachable db -> reachable (run ops db).
Proof.
  revert db. induction ops as [|op ops IH]; intros db H; simpl; auto.
  apply IH. now constructor.
Qed.

(** ** Rotations and rebalancing keep the symmetric order *)

Lemma inorder_updateHeight (n : AVLNode) : inorder (updateHeight n) = inorder n.
Proof. now destruct n. Qed.

Lemma inorder_rotateRight (n : AVLNode) : inorder (rotateRight n) = inorder n.
Proof.
  destruct n as [|rc [|lrc ll lr lh] r h]; simpl; auto.
  now rewrite <- app_assoc.
Qed.

Lemma inorder_rotateLeft (n : AVLNode) : inorder (rotateLeft n) = inorder n.
Proof.
  destruct n as [|rc l [|rrc rl rr rh] h]; simpl; auto.
  now rewrite <- app_assoc.
Qed.

Lemma inorder_reBalance (n : AVLNode) : inorder (reBalance n) = inorder n.
Proof.
  unfold reBalance. destruct n as [|rc l r h]; [reflexivity|].
  cbn [updateHeight].
  repeat match goal with
         | |- context [if ?c then _ else _] => destruct c
         end;
    rewrite ?inorder_rotateRight, ?inorder_rotateLeft; cbn [inorder];
    rewrite ?inorder_rotateRight, ?inorder_rotateLeft; reflexivity.
Qed.

Lemma countNodes_length (n : AVLNode) : countNodes n = Z.of_nat (List.length (inorder n)).
Proof.
  induction n as [|rc l IHl r IHr h]; cbn [countNodes inorder]; [reflexivity|].
  rewrite List.length_app. cbn [List.length]. lia.
Qed.

(** ** Search-tree order *)

Lemma sorted_keys_app (l1 l2 : list string) :
  sorted_keys (l1 ++ l2) <->
  sorted_keys l1 /\ sorted_keys l2 /\
  (forall a b, In a l1 -> In b l2 -> str_lt a b).
Proof.
  induction l1 as [|x l1 IH]; simpl.
  - intuition.
  - rewrite IH, Forall_app, !Forall_forall. split.
    + intros ((H1 & H2) & H3 & H4 & H5). repeat split; auto.
      intros a b [<-|Ha] Hb; auto.
    + intros ((H1 & H2) & H3 & H4). repeat split; auto.
Qed.

Lemma bst_node (rc : DbRecord) (l r : AVLNode) (h : Z) :
  bst (Node rc l r h) <->
  bst l /\ bst r /\
  (forall x, In x (inorder l) -> str_lt (key x) (key rc)) /\
  (forall x, In x (inorder r) -> str_lt (key rc) (key x)).
Proof.
  unfold bst. simpl. rewrite map_app, sorted_keys_app. simpl.
  rewrite Forall_forall. split.
  - intros (H1 & (H2 & H3) & H4). repeat split; auto.
    + intros x Hx. apply H4; [now apply in_map|now left].
    + intros x Hx. apply H2. now apply in_map.
  - intros (H1 & H2 & H3 & H4). repeat split; auto.
    + intros k Hk. apply in_map_iff in Hk as (x & <- & Hx). auto.
    + intros a b Ha [<-|Hb].
      * apply in_map_iff in Ha as (x & <- & Hx). auto.
      * apply in_map_iff in Ha as (x & <- & Hx).
        apply in_map_iff in Hb as (y & <- & Hy).
        eapply str_lt_trans; eauto.
Qed.

Lemma bst_same_inorder (n m : AVLNode) : inorder n = inorder m -> bst m -> bst n.
Proof. unfold bst. now intros ->. Qed.

Lemma bst_deref (t : AVLNode) (p : ptr) : bst t -> bst (deref t p).
Proof.
  revert t. induction p as [|[|] p IH]; intros [|rc l r h] H; simpl; auto;
    apply IH; apply bst_node in H; tauto.
Qed.

(** Keys are unique in a search tree. *)
Lemma sorted_keys_unique (l : list DbRecord) (a b : DbRecord) :
  sorted_keys (map key l) -> In a l -> In b l -> key a = key b -> a = b.
Proof.
  induction l as [|x l IH]; simpl; [easy|].
  rewrite Forall_forall. intros [H1 H2] [<-|Ha] [<-|Hb] E; auto; exfalso.
  - specialize (H1 (key b) (in_map key _ _ Hb)). unfold str_lt in H1.
    rewrite E, key_lt_irrefl in H1. discriminate.
  - specialize (H1 (key a) (in_map key _ _ Ha)). unfold str_lt in H1.
    rewrite E, key_lt_irrefl in H1. discriminate.
Qed.

(** ** Exact search *)

Lemma deref_In (t : AVLNode) (p : ptr) (rc : DbRecord) :
  record_at t p = Some rc -> In rc (inorder t).
Proof.
  unfold record_at. revert t.
  induction p as [|[|] p IH]; intros [|rc0 l r h]; simpl; try discriminate.
  - intros [= <-]. apply in_or_app. right. now left.
  - intros H. apply in_or_app. left. auto.
  - intros H. apply in_or_app. right. right. auto.
Qed.

(** The node [searchHelper] returns is in the tree and carries the key. *)
Lemma searchHelper_found (t : AVLNode) (k : string) (v : Z) (p : ptr) :
  searchHelper t k v = Some p ->
  exists rc l r h, deref t p = Node rc l r h /\ key rc = k.
Proof.
  revert p. induction t as [|rc l IHl r IHr h]; intros p; simpl; [discriminate|].
  destruct (key_lt k (key rc)) eqn:E1.
  - destruct (searchHelper l k v) as [q|]; [|discriminate].
    intros [= <-]. simpl. now apply IHl.
  - destruct (key_gt k (key rc)) eqn:E2.
    + destruct (searchHelper r k v) as [q|]; [|discriminate].
      intros [= <-]. simpl. now apply IHr.
    + intros [= <-]. simpl. exists rc, l, r, h. split; auto.
      symmetry. now apply key_trichotomy.
Qed.

Lemma searchHelper_record (t : AVLNode) (k : string) (v : Z) (p : ptr) :
  searchHelper t k v = Some p ->
  exists rc, record_at t p = Some rc /\ key rc = k /\ In rc (inorder t).
Proof.
  intros H. pose proof H as (rc & l & r & h & D & E)%searchHelper_found.
  assert (R : record_at t p = Some rc) by (unfold record_at; now rewrite D).
  exists rc. repeat split; auto. eapply deref_In; eauto.
Qed.

(** A key that no node carries is not found. *)
Lemma searchHelper_absent (t : AVLNode) (k : string) (v : Z) :
  (forall rc, In rc (inorder t) -> key rc <> k) -> searchHelper t k v = None.
Proof.
  intros H. destruct (searchHelper t k v) as [p|] eqn:E; [|reflexivity].
  apply searchHelper_record in E as (rc & _ & E & Hin).
  now destruct (H rc Hin).
Qed.

(** In a search tree every stored record is found under its key. *)
Lemma searchHelper_complete (t : AVLNode) (rc : DbRecord) (v : Z) :
  bst t -> In rc (inorder t) ->
  exists p, searchHelper t (key rc) v = Some p /\ record_at t p = Some rc.
Proof.
  induction t as [|rc0 l IHl r IHr h]; simpl; [easy|].
  intros (Bl & Br & Hl & Hr)%bst_node Hin.
  apply in_app_or in Hin as [Hin|[<-|Hin]].
  - pose proof (Hl _ Hin) as E. unfold str_lt in E. rewrite E.
    destruct (IHl Bl Hin) as (p & -> & Hp). exists (L :: p).
    split; [reflexivity|exact Hp].
  - rewrite key_gt_lt, key_lt_irrefl. exists []. split; reflexivity.
  - pose proof (Hr _ Hin) as E. unfold str_lt in E.
    rewrite (key_lt_asym _ _ E), key_gt_lt, E.
    destruct (IHr Br Hin) as (p & -> & Hp). exists (R :: p).
    split; [reflexivity|exact Hp].
Qed.

(** ** Insertion *)

Lemma inorder_insertHelper_node (rc0 : DbRecord) (l r : AVLNode) (h : Z) (rc : DbRecord) :
  inorder (insertHelper (Node rc0 l r h) rc) =
  if key_lt (key rc) (key rc0) then inorder (insertHelper l rc) ++ rc0 :: inorder r
  else if key_gt (key rc) (key rc0) then inorder l ++ rc0 :: inorder (insertHelper r rc)
  else inorder l ++ rc0 :: inorder r.
Proof.
  cbn [insertHelper]. rewrite inorder_reBalance, inorder_updateHeight.
  destruct (key_lt (key rc) (key rc0)); [reflexivity|].
  destruct (key_gt (key rc) (key rc0)); reflexivity.
Qed.

Lemma root_insert (t : AVLTree) (rc : DbRecord) :
  root (insert t rc) = insertHelper (root t) rc.
Proof. unfold insert. now destruct (root t). Qed.

Lemma nodeCount_insert (t : AVLTree) (rc : DbRecord) :
  nodeCount (insert t rc) = nodeCount t + 1.
Proof. unfold insert. now destruct (root t). Qed.

(** A key that the descent finds: no node is created. *)
Lemma insertHelper_present (t : AVLNode) (rc : DbRecord) (v : Z) (p : ptr) :
  searchHelper t (key rc) v = Some p -> inorder (insertHelper t rc) = inorder t.
Proof.
  revert p. induction t as [|rc0 l IHl r IHr h]; intros p; [discriminate|].
  rewrite inorder_insertHelper_node. cbn [searchHelper inorder].
  destruct (key_lt (key rc) (key rc0)).
  - destruct (searchHelper l (key rc) v) as [q|] eqn:E; [|discriminate].
    intros _. now rewrite (IHl q).
  - destruct (key_gt (key rc) (key rc0)); [|reflexivity].
    destruct (searchHelper r (key rc) v) as [q|] eqn:E; [|discriminate].
    intros _. now rewrite (IHr q).
Qed.

(** A key that the descent does not find: one node is created, where the
    descent ends. *)
Lemma insertHelper_absent (t : AVLNode) (rc : DbRecord) (v : Z) :
  searchHelper t (key rc) v = None ->
  exists l1 l2, inorder t = l1 ++ l2 /\ inorder (insertHelper t rc) = l1 ++ rc :: l2.
Proof.
  induction t as [|rc0 l IHl r IHr h].
  - intros _. now exists [], [].
  - rewrite inorder_insertHelper_node. cbn [searchHelper inorder].
    destruct (key_lt (key rc) (key rc0)).
    + destruct (searchHelper l (key rc) v) as [q|] eqn:E; [discriminate|].
      intros _. destruct (IHl eq_refl) as (l1 & l2 & -> & ->).
      exists l1, (l2 ++ rc0 :: inorder r).
      now rewrite <- !app_assoc.
    + destruct (key_gt (key rc) (key rc0)); [|discriminate].
      destruct (searchHelper r (key rc) v) as [q|] eqn:E; [discriminate|].
      intros _. destruct (IHr eq_refl) as (l1 & l2 & -> & ->).
      exists (inorder l ++ rc0 :: l1), l2.
      now rewrite <- !app_assoc.
Qed.

Lemma insertHelper_In (t : AVLNode) (rc x : DbRecord) :
  In x (inorder (insertHelper t rc)) -> x = rc \/ In x (inorder t).
Proof.
  destruct (searchHelper t (key rc) 0) as [p|] eqn:E.
  - rewrite (insertHelper_present _ _ _ _ E). auto.
  - destruct (insertHelper_absent _ _ _ E) as (l1 & l2 & -> & ->).
    rewrite !in_app_iff. simpl. intuition.
Qed.

Lemma insertHelper_bst (t : AVLNode) (rc : DbRecord) :
  bst t -> bst (insertHelper t rc).
Proof.
  induction t as [|rc0 l IHl r IHr h]; intros B.
  - unfold bst. simpl. auto.
  - unfold bst at 1. rewrite inorder_insertHelper_node.
    apply bst_node in B as (Bl & Br & Hl & Hr).
    destruct (key_lt (key rc) (key rc0)) eqn:E1;
      [|destruct (key_gt (key rc) (key rc0)) eqn:E2].
    + apply (bst_node rc0 (insertHelper l rc) r h). repeat split; auto.
      intros x [->|Hx]%insertHelper_In; auto.
    + apply (bst_node rc0 l (insertHelper r rc) h). repeat split; auto.
      intros x [->|Hx]%insertHelper_In; auto.
    + apply (bst_node rc0 l r h). repeat split; auto.
Qed.

(** ** Pointers and the symmetric order *)

Lemma inorder_deref (t : AVLNode) (p : ptr) :
  inorder t = before t p ++ inorder (deref t p) ++ after t p.
Proof.
  revert t. induction p as [|[|] p IH]; intros [|rc l r h]; simpl;
    rewrite ?app_nil_r; auto.
  - rewrite (IH l) at 1. now rewrite <- !app_assoc.
  - rewrite (IH r) at 1. now rewrite <- !app_assoc.
Qed.

Lemma inorder_store (t : AVLNode) (p : ptr) (f : AVLNode -> AVLNode) :
  is_null (deref t p) = false ->
  inorder (store t p f) = before t p ++ inorder (f (deref t p)) ++ after t p.
Proof.
  revert t. induction p as [|[|] p IH]; intros [|rc l r h]; simpl;
    rewrite ?app_nil_r; auto; try discriminate; intros H.
  - rewrite (IH l H). now rewrite <- !app_assoc.
  - rewrite (IH r H). now rewrite <- !app_assoc.
Qed.

Lemma deref_store (t : AVLNode) (p : ptr) (f : AVLNode -> AVLNode) :
  is_null (deref t p) = false -> deref (store t p f) p = f (deref t p).
Proof.
  revert t. induction p as [|[|] p IH]; intros [|rc l r h]; simpl; auto;
    intros H; discriminate H.
Qed.

Lemma store_store (t : AVLNode) (p q : ptr) (f g : AVLNode -> AVLNode) :
  store (store t p f) (p ++ q) g = store t p (fun n => store (f n) q g).
Proof.
  revert t. induction p as [|[|] p IH]; intros [|rc l r h]; simpl; auto;
    now rewrite IH.
Qed.

Lemma store_last (t : AVLNode) (p : ptr) (d : dir) (x : AVLNode) :
  store t (p ++ [d]) (fun _ => x) =
  store t p (match d with L => set_left x | R => set_right x end).
Proof.
  rewrite store_app. revert t.
  induction p as [|[|] p IH]; intros [|rc l r h]; simpl; auto;
    try (now destruct d); now rewrite IH.
Qed.

Lemma last_split (p : ptr) : p <> [] -> exists q d, p = q ++ [d].
Proof.
  intros H. destruct (exists_last H) as (q & d & ->). now exists q, d.
Qed.

(** ** The descent of [deleteHelper] *)

Lemma descends_not_null (t : AVLNode) (k : string) (p : ptr) :
  descends t k p -> is_null (deref t p) = false.
Proof.
  revert t. induction p as [|d p IH]; intros [|rc l r h]; simpl; try easy.
  destruct (key_lt k (key rc)); intros [-> H]; auto.
Qed.

Lemma descends_app (t : AVLNode) (k : string) (p q : ptr) :
  descends t k (p ++ q) <-> descends t k p /\ descends (deref t p) k q.
Proof.
  revert t. induction p as [|d p IH]; intros [|rc l r h]; simpl; try tauto.
  destruct (key_lt k (key rc)); rewrite IH; split.
  - intros (-> & H1 & H2). auto.
  - intros ((-> & H1) & H2). auto.
  - intros (-> & H1 & H2). auto.
  - intros ((-> & H1) & H2). auto.
Qed.

Lemma descends_store (t : AVLNode) (k : string) (p : ptr) (f : AVLNode -> AVLNode) :
  descends t k p -> is_null (f (deref t p)) = false ->
  descends (store t p f) k p.
Proof.
  revert t. induction p as [|d p IH]; intros [|rc l r h]; simpl; try tauto.
  - intros _ H. destruct (f (Node rc l r h)); [discriminate|exact I].
  - destruct (key_lt k (key rc)) eqn:E; intros [-> H1] H2; simpl; rewrite E; auto.
Qed.

(** The loop of [deleteHelper] returns the node above [child] when its
    descent leads to [child]. *)
Lemma deleteHelper_loop_parent (t : AVLNode) (ckey : string) (q : ptr) (d : dir) :
  forall (cur : ptr) (parent : option ptr),
  descends t ckey (q ++ [d]) ->
  deleteHelper_loop t cur (cur ++ q ++ [d]) ckey parent = Some (cur ++ q).
Proof.
  revert t. induction q as [|d0 q IH]; intros [|rc l r h] cur parent; simpl; try tauto.
  - rewrite ptr_eqb_app_nil, app_nil_r.
    destruct (key_lt ckey (key rc)); intros [-> H].
    + destruct l; [easy|]. simpl. now rewrite ptr_eqb_refl.
    + destruct r; [easy|]. simpl. now rewrite ptr_eqb_refl.
  - rewrite ptr_eqb_app_nil.
    destruct (key_lt ckey (key rc)); intros [-> H].
    + specialize (IH l (cur ++ [L]) (Some cur) H).
      rewrite <- !app_assoc in IH. exact IH.
    + specialize (IH r (cur ++ [R]) (Some cur) H).
      rewrite <- !app_assoc in IH. exact IH.
Qed.

(** Writing [x] into the parent's link to [child] puts [x] where [child]
    was. *)
Lemma replace_child_store (rt : AVLNode) (child : ptr) (crec : DbRecord) (x : AVLNode) :
  child <> [] -> record_at rt child = Some crec ->
  descends rt (key crec) child ->
  replace_child rt child x = store rt child (fun _ => x).
Proof.
  intros Hne Hrec Hd. destruct (last_split _ Hne) as (q & d & ->).
  unfold replace_child, deleteHelper. rewrite Hrec.
  pose proof (deleteHelper_loop_parent rt (key crec) q d [] None Hd) as E.
  simpl in E. rewrite E.
  rewrite store_last. destruct d.
  - now rewrite ptr_eqb_refl.
  - replace (ptr_eqb (q ++ [L]) (q ++ [R])) with false; [reflexivity|].
    symmetry. apply not_true_is_false. intros F%ptr_eqb_eq.
    apply app_inv_head in F. discriminate.
Qed.

(** The parent that [deleteHelper] returns for a node other than the root
    is never null: the dereferences [parent->left] of [deleteNode] are
    defined. *)
Lemma deleteHelper_loop_some (t : AVLNode) (cur child q : ptr) (ckey : string) :
  deleteHelper_loop t cur child ckey (Some q) <> None.
Proof.
  revert cur q. induction t as [|rc l IHl r IHr h]; intros cur q; simpl.
  - discriminate.
  - destruct (ptr_eqb cur child); [discriminate|].
    destruct (key_lt ckey (key rc)); auto.
Qed.

Lemma deleteHelper_parent_not_null (rt : AVLNode) (child : ptr) (crec : DbRecord) :
  child <> [] -> record_at rt child = Some crec -> deleteHelper rt child <> None.
Proof.
  intros Hne Hrec. unfold deleteHelper. rewrite Hrec.
  destruct rt as [|rc l r h].
  - unfold record_at in Hrec. rewrite deref_null in Hrec. discriminate.
  - destruct child as [|d child]; [easy|]. simpl.
    destruct (key_lt (key crec) (key rc)); apply deleteHelper_loop_some.
Qed.

Lemma searchHelper_descends (t : AVLNode) (k : string) (v : Z) (p : ptr) :
  searchHelper t k v = Some p -> descends t k p.
Proof.
  revert p. induction t as [|rc l IHl r IHr h]; intros p; simpl; [discriminate|].
  destruct (key_lt k (key rc)).
  - destruct (searchHelper l k v) as [q|]; [|discriminate].
    intros [= <-]. auto.
  - destruct (key_gt k (key rc)).
    + destruct (searchHelper r k v) as [q|]; [|discriminate].
      intros [= <-]. auto.
    + now intros [= <-].
Qed.

(** In a search tree the descent on the key of a node leads to that node. *)
Lemma bst_descends (t : AVLNode) (q : ptr) (rc : DbRecord) :
  bst t -> record_at t q = Some rc -> descends t (key rc) q.
Proof.
  revert t. induction q as [|d q IH]; intros [|rc0 l r h] B H;
    try discriminate H; try (destruct d; discriminate H); simpl; auto.
  apply bst_node in B as (Bl & Br & Hl & Hr).
  destruct d.
  - change (record_at l q = Some rc) in H.
    pose proof (Hl _ (deref_In _ _ _ H)) as E. unfold str_lt in E. rewrite E. auto.
  - change (record_at r q = Some rc) in H.
    pose proof (Hr _ (deref_In _ _ _ H)) as E. unfold str_lt in E.
    rewrite (key_lt_asym _ _ E). auto.
Qed.

(** ** The in-order successor *)

Lemma minValueNode_path (n : AVLNode) (q : ptr) : minValueNode n q = q ++ min_path n.
Proof.
  revert q. induction n as [|rc l IHl r _ h]; intros q; simpl.
  - now rewrite app_nil_r.
  - destruct l as [|lrc ll lr lh].
    + now rewrite app_nil_r.
    + rewrite IHl, <- app_assoc. reflexivity.
Qed.

(** [minValueNode] ends on the node that comes first in symmetric order, and
    that node has no left child. *)
Lemma min_path_spec (n : AVLNode) :
  is_null n = false ->
  exists rc r h, deref n (min_path n) = Node rc nullptr r h /\ before n (min_path n) = [].
Proof.
  induction n as [|rc l IHl r _ h]; [discriminate|]. intros _.
  destruct l as [|lrc ll lr lh].
  - now exists rc, r, h.
  - destruct (IHl eq_refl) as (mrc & mr & mh & H1 & H2).
    exists mrc, mr, mh. split; [exact H1|exact H2].
Qed.

Lemma deref_store_app (t : AVLNode) (p q : ptr) (f : AVLNode -> AVLNode) :
  is_null (deref t p) = false ->
  deref (store t p f) (p ++ q) = deref (f (deref t p)) q.
Proof.
  revert t. induction p as [|[|] p IH]; intros [|rc l r h]; simpl; auto;
    intros H; discriminate H.
Qed.

(** ** Deletion *)

(** The three removal cases take the record of [nodeToDelete] out of the
    symmetric order and keep every other record in place. *)
Lemma remove_node_inorder (rt : AVLNode) (p : ptr) (rc : DbRecord) (l r : AVLNode) (h : Z) :
  bst rt -> descends rt (key rc) p -> deref rt p = Node rc l r h ->
  inorder (remove_node rt p l r) =
  before rt p ++ (inorder l ++ inorder r) ++ after rt p.
Proof.
  intros B Hd D.
  assert (Hrec : record_at rt p = Some rc) by (unfold record_at; now rewrite D).
  assert (Hnn : is_null (deref rt p) = false) by now rewrite D.
  assert (Hsplice : forall x, inorder x = inorder l ++ inorder r ->
            inorder (if ptr_eqb p [] then x else replace_child rt p x) =
            before rt p ++ (inorder l ++ inorder r) ++ after rt p).
  { intros x Hx. destruct p as [|d p'].
    - cbn [ptr_eqb before after app]. now rewrite app_nil_r.
    - cbn [ptr_eqb].
      rewrite (replace_child_store rt (d :: p') rc x) by (auto; discriminate).
      rewrite inorder_store by exact Hnn. now rewrite Hx. }
  unfold remove_node.
  destruct l as [|lrc ll lr lh]; destruct r as [|rrc rl rr rh]; cbn [is_null andb orb].
  - exact (Hsplice nullptr eq_refl).
  - exact (Hsplice (Node rrc rl rr rh) eq_refl).
  - apply (Hsplice (Node lrc ll lr lh)). simpl. now rewrite app_nil_r.
  - set (l := Node lrc ll lr lh) in *. set (r := Node rrc rl rr rh) in *.
    destruct (min_path_spec r eq_refl) as (mrc & mr & mh & Dm & Bm).
    rewrite minValueNode_path, <- app_assoc. cbn [app].
    set (mp := min_path r) in *.
    assert (Dmin : deref rt (p ++ R :: mp) = Node mrc nullptr mr mh).
    { rewrite deref_app, D. exact Dm. }
    assert (Rmin : record_at rt (p ++ R :: mp) = Some mrc)
      by (unfold record_at; now rewrite Dmin).
    rewrite Rmin.
    set (rt1 := store rt p (set_record mrc)).
    assert (Dmin1 : deref rt1 (p ++ R :: mp) = Node mrc nullptr mr mh).
    { unfold rt1. rewrite deref_store_app by exact Hnn. rewrite D. exact Dm. }
    rewrite Dmin1. cbn [node_right].
    assert (Br : bst r).
    { apply (bst_deref rt (p ++ [R])) in B. rewrite deref_app, D in B. exact B. }
    rewrite (replace_child_store rt1 (p ++ R :: mp) mrc mr).
    + unfold rt1. rewrite store_store, inorder_store by exact Hnn.
      rewrite D. cbn [set_record store inorder].
      rewrite (inorder_store r mp) by (fold mp in Dm; now rewrite Dm).
      rewrite (inorder_deref r mp). fold mp in Bm. rewrite Bm, Dm.
      reflexivity.
    + now destruct p.
    + unfold record_at. now rewrite Dmin1.
    + apply descends_app. split.
      * unfold rt1. apply descends_store; [|now rewrite D].
        pose proof (bst_descends rt _ mrc B Rmin) as Hd1.
        now apply descends_app in Hd1.
      * unfold rt1. rewrite deref_store by exact Hnn. rewrite D.
        cbn [set_record descends]. rewrite key_lt_irrefl. split; [reflexivity|].
        apply bst_descends; [exact Br|]. unfold record_at. fold mp in Dm.
        now rewrite Dm.
Qed.

Lemma deleteNode_eq (t : AVLTree) (k : string) (v : Z) :
  deleteNode t k v =
  match searchHelper (root t) k v with
  | None => t
  | Some p =>
      match deref (root t) p with
      | nullptr => t
      | Node rc l r _ =>
          if negb (value rc =? v) then t
          else mkTree (reBalance (updateHeight (remove_node (root t) p l r)))
                      (nodeCount t - 1) (searchComparisonCount t)
      end
  end.
Proof. unfold deleteNode. now destruct (root t). Qed.

Lemma record_eta (rc : DbRecord) : mkRecord (key rc) (value rc) = rc.
Proof. now destruct rc. Qed.

(** What [deleteNode] does once the search has found a node whose value
    matches. *)
Lemma deleteNode_found (t : AVLTree) (k : string) (v : Z) (p : ptr)
    (rc : DbRecord) (l r : AVLNode) (h : Z) :
  bst (root t) -> searchHelper (root t) k v = Some p ->
  deref (root t) p = Node rc l r h -> value rc = v ->
  removed rc t (deleteNode t k v).
Proof.
  intros B S D V. rewrite deleteNode_eq, S, D.
  replace (value rc =? v) with true by (symmetry; now apply Z.eqb_eq).
  cbn [negb].
  exists (before (root t) p ++ inorder l), (inorder r ++ after (root t) p).
  cbn [root nodeCount searchComparisonCount].
  rewrite inorder_reBalance, inorder_updateHeight.
  pose proof (searchHelper_found _ _ _ _ S) as (rc' & l' & r' & h' & D' & K).
  rewrite D in D'. injection D' as <- <- <- <-.
  rewrite (remove_node_inorder (root t) p rc l r h B); auto.
  - rewrite (inorder_deref (root t) p) at 1. rewrite D. cbn [inorder].
    rewrite <- !app_assoc. auto.
  - rewrite K. eapply searchHelper_descends; eauto.
Qed.

Lemma deleteNode_absent (t : AVLTree) (k : string) (v : Z) :
  ~ In (mkRecord k v) (inorder (root t)) -> deleteNode t k v = t.
Proof.
  intros H. rewrite deleteNode_eq.
  destruct (searchHelper (root t) k v) as [p|] eqn:S; [|reflexivity].
  pose proof (searchHelper_found _ _ _ _ S) as (rc & l & r & h & D & K).
  rewrite D. destruct (value rc =? v) eqn:V; [|reflexivity].
  exfalso. apply H. apply Z.eqb_eq in V. rewrite <- K, <- V, record_eta.
  apply (deref_In _ p). unfold record_at. now rewrite D.
Qed.

Lemma deleteNode_present (t : AVLTree) (k : string) (v : Z) :
  bst (root t) -> In (mkRecord k v) (inorder (root t)) ->
  removed (mkRecord k v) t (deleteNode t k v).
Proof.
  intros B H.
  destruct (searchHelper_complete _ _ v B H) as (p & S & Hp). simpl in S.
  unfold record_at in Hp.
  destruct (deref (root t) p) as [|rc l r h] eqn:D; [discriminate|].
  injection Hp as ->. eapply deleteNode_found; eauto.
Qed.

Lemma deleteNode_cases (t : AVLTree) (k : string) (v : Z) :
  bst (root t) ->
  deleteNode t k v = t \/ removed (mkRecord k v) t (deleteNode t k v).
Proof.
  intros B. rewrite deleteNode_eq.
  destruct (searchHelper (root t) k v) as [p|] eqn:S; [|now left].
  pose proof (searchHelper_found _ _ _ _ S) as (rc & l & r & h & D & K).
  rewrite D. destruct (value rc =? v) eqn:V; [|now left].
  right. pose proof (proj1 (Z.eqb_eq _ _) V) as V'.
  pose proof (deleteNode_found t k v p rc l r h B S D V') as H.
  rewrite deleteNode_eq, S, D, V in H.
  now rewrite <- K, <- V', record_eta.
Qed.

Lemma removed_bst (rc : DbRecord) (t t' : AVLTree) :
  removed rc t t' -> bst (root t) -> bst (root t').
Proof.
  intros (l1 & l2 & E1 & E2 & _). unfold bst. rewrite E1, E2, !map_app.
  cbn [map]. rewrite !sorted_keys_app. cbn [sorted_keys].
  intros (H1 & (H2 & H3) & H4). repeat split; auto.
  intros a b Ha Hb. apply H4; [exact Ha|now right].
Qed.

Lemma removed_countNodes (rc : DbRecord) (t t' : AVLTree) :
  removed rc t t' -> countNodes (root t') = countNodes (root t) - 1.
Proof.
  intros (l1 & l2 & E1 & E2 & _). rewrite !countNodes_length, E1, E2.
  rewrite !List.length_app. cbn [List.length]. lia.
Qed.

Lemma deleteNode_bst (t : AVLTree) (k : string) (v : Z) :
  bst (root t) -> bst (root (deleteNode t k v)).
Proof.
  intros B. destruct (deleteNode_cases t k v B) as [->|H]; [exact B|].
  eapply removed_bst; eauto.
Qed.

(** ** The reachable states are search trees *)

Lemma reachable_bst (db : IndexedDatabase.t) :
  reachable db -> bst (root (IndexedDatabase.index db)).
Proof.
  induction 1 as [|db [rc|k v|] _ IH]; cbn.
  - exact I.
  - rewrite root_insert. now apply insertHelper_bst.
  - now apply deleteNode_bst.
  - exact I.
Qed.

Lemma counted_reachable (db : IndexedDatabase.t) : counted db -> reachable db.
Proof.
  induction 1 as [|db rc _ IH _|db k v _ IH].
  - constructor.
  - exact (reachable_step db (OpInsert rc) IH).
  - exact (reachable_step db (OpDelete k v) IH).
Qed.

(** Search after an insertion, in a search tree. *)
Lemma search_insert_fresh (t : AVLTree) (rc : DbRecord) (v : Z) :
  bst (root t) -> key_absent (key rc) (root t) ->
  fst (search (insert t rc) (key rc) v) = stored rc.
Proof.
  intros B A. unfold search. rewrite root_insert.
  pose proof (insertHelper_bst _ rc B) as B'.
  destruct (insertHelper_absent (root t) rc v (searchHelper_absent _ _ _ A))
    as (l1 & l2 & E1 & E2).
  assert (Hin : In rc (inorder (insertHelper (root t) rc))).
  { rewrite E2. apply in_or_app. right. now left. }
  destruct (searchHelper_complete _ _ v B' Hin) as (p & -> & ->).
  reflexivity.
Qed.

Lemma search_insert_existing (t : AVLTree) (rc old : DbRecord) (v : Z) :
  bst (root t) -> In old (inorder (root t)) -> key old = key rc ->
  inorder (root (insert t rc)) = inorder (root t) /\
  fst (search (insert t rc) (key rc) v) = stored old.
Proof.
  intros B Hin K. rewrite root_insert.
  destruct (searchHelper_complete _ _ v B Hin) as (p & S & Hp).
  rewrite K in S.
  pose proof (insertHelper_present _ _ _ _ S) as E. split; [exact E|].
  unfold search. rewrite root_insert.
  pose proof (insertHelper_bst _ rc B) as B'.
  assert (Hin' : In old (inorder (insertHelper (root t) rc))) by now rewrite E.
  destruct (searchHelper_complete _ _ v B' Hin') as (p' & S' & Hp').
  rewrite K in S'. now rewrite S', Hp'.
Qed.

Lemma str_lt_irrefl (a : string) : ~ str_lt a a.
Proof. unfold str_lt. rewrite key_lt_irrefl. discriminate. Qed.

Lemma removed_not_In (rc : DbRecord) (t t' : AVLTree) :
  removed rc t t' -> bst (root t) -> ~ In rc (inorder (root t')).
Proof.
  intros (l1 & l2 & E1 & E2 & _). unfold bst. rewrite E1, E2, map_app.
  cbn [map]. rewrite sorted_keys_app. cbn [sorted_keys]. rewrite Forall_forall.
  intros (_ & (H2 & _) & H4) [Hin|Hin]%in_app_or.
  - apply (str_lt_irrefl (key rc)). apply H4; [now apply in_map|now left].
  - apply (str_lt_irrefl (key rc)). apply H2. now apply in_map.
Qed.

(** In a search tree, a key the search does not find is carried by no node. *)
Lemma searchHelper_none_absent (t : AVLNode) (k : string) (v : Z) :
  bst t -> searchHelper t k v = None -> key_absent k t.
Proof.
  intros B S x Hin <-.
  destruct (searchHelper_complete _ _ v B Hin) as (p & S' & _). congruence.
Qed.

(** [nodeCount] follows the number of nodes while no key is inserted twice
    and the database is not cleared. *)
Lemma counted_nodeCount (db : IndexedDatabase.t) :
  counted db ->
  nodeCount (IndexedDatabase.index db) = countNodes (root (IndexedDatabase.index db)).
Proof.
  induction 1 as [|db rc Hc IH A|db k v Hc IH]; cbn.
  - reflexivity.
  - rewrite nodeCount_insert, root_insert, IH, !countNodes_length.
    destruct (insertHelper_absent _ rc 0 (searchHelper_absent _ _ 0 A))
      as (l1 & l2 & -> & ->).
    rewrite !List.length_app. cbn [List.length]. lia.
  - pose proof (reachable_bst _ (counted_reachable _ Hc)) as B.
    destruct (deleteNode_cases (IndexedDatabase.index db) k v B) as [->|H];
      [exact IH|].
    rewrite (removed_countNodes _ _ _ H).
    destruct H as (_ & _ & _ & _ & -> & _). lia.
Qed.

(** ** Insertion keeps the tree balanced *)

Lemma avl_height_nonneg (n : AVLNode) : avl n -> 0 <= height n.
Proof.
  induction n as [|rc l IHl r IHr h]; cbn [avl height]; [lia|].
  intros (Hl & Hr & -> & _). specialize (IHl Hl). lia.
Qed.

(** [reBalance] restores the invariant at a node whose subtrees satisfy it
    and whose heights differ by at most 2. *)
Lemma reBalance_avl (rc : DbRecord) (l r : AVLNode) (h : Z) :
  avl l -> avl r -> -2 <= height l - height r <= 2 ->
  avl (reBalance (Node rc l r h)) /\
  Z.max (height l) (height r) <= height (reBalance (Node rc l r h))
    <= 1 + Z.max (height l) (height r) /\
  (-1 <= height l - height r <= 1 ->
   height (reBalance (Node rc l r h)) = 1 + Z.max (height l) (height r)).
Proof.
  intros Al Ar Hd. unfold reBalance. cbn [updateHeight getBalance].
  pose proof (avl_height_nonneg _ Al) as Nl.
  pose proof (avl_height_nonneg _ Ar) as Nr.
  destruct (Z.ltb_spec 1 (height l - height r)) as [B1|B1];
    destruct (Z.ltb_spec (height l - height r) (-1)) as [B2|B2];
    try lia; cbn [andb].
  - destruct l as [|lrc ll lr lh]; [simpl in *; lia|].
    cbn [getBalance]. destruct Al as (All & Alr & -> & Hb).
    pose proof (avl_height_nonneg _ All). pose proof (avl_height_nonneg _ Alr).
    cbn [height] in *.
    destruct (Z.leb_spec 0 (height ll - height lr)) as [B3|B3].
    + cbn [rotateRight updateHeight height avl]. repeat split; auto; lia.
    + destruct (Z.ltb_spec (height ll - height lr) 0) as [_|]; [|lia].
      destruct lr as [|lrrc lrl lrr lrh]; [simpl in *; lia|].
      destruct Alr as (Alrl & Alrr & -> & Hb').
      pose proof (avl_height_nonneg _ Alrl). pose proof (avl_height_nonneg _ Alrr).
      cbn [height] in *.
      cbn [rotateLeft rotateRight updateHeight height avl].
      repeat split; auto; lia.
  - destruct r as [|rrc rl rr rh]; [simpl in *; lia|].
    cbn [getBalance]. destruct Ar as (Arl & Arr & -> & Hb).
    pose proof (avl_height_nonneg _ Arl). pose proof (avl_height_nonneg _ Arr).
    cbn [height] in *.
    destruct (Z.leb_spec (height rl - height rr) 0) as [B3|B3].
    + cbn [rotateLeft updateHeight height avl]. repeat split; auto; lia.
    + destruct (Z.ltb_spec 0 (height rl - height rr)) as [_|]; [|lia].
      destruct rl as [|rlrc rll rlr rlh]; [simpl in *; lia|].
      destruct Arl as (Arll & Arlr & -> & Hb').
      pose proof (avl_height_nonneg _ Arll). pose proof (avl_height_nonneg _ Arlr).
      cbn [height] in *.
      cbn [rotateLeft rotateRight updateHeight height avl].
      repeat split; auto; lia.
  - cbn [height avl]. repeat split; auto; lia.
Qed.

Lemma insertHelper_avl (t : AVLNode) (rc : DbRecord) :
  avl t ->
  avl (insertHelper t rc) /\
  height t <= height (insertHelper t rc) <= height t + 1.
Proof.
  induction t as [|rc0 l IHl r IHr h].
  - intros _. cbn. lia.
  - intros (Al & Ar & -> & Hb). cbn [insertHelper updateHeight height].
    destruct (IHl Al) as (Al' & Hl'). destruct (IHr Ar) as (Ar' & Hr').
    destruct (key_lt (key rc) (key rc0));
      [|destruct (key_gt (key rc) (key rc0))]; cbn [updateHeight].
    + destruct (reBalance_avl rc0 (insertHelper l rc) r
                  (1 + Z.max (height (insertHelper l rc)) (height r)))
        as (A & H1 & H2); auto; [lia|].
      split; [exact A|].
      destruct (Z_le_gt_dec (height (insertHelper l rc) - height r) 1);
        [rewrite H2|]; lia.
    + destruct (reBalance_avl rc0 l (insertHelper r rc)
                  (1 + Z.max (height l) (height (insertHelper r rc))))
        as (A & H1 & H2); auto; [lia|].
      split; [exact A|].
      destruct (Z_le_gt_dec (-1) (height l - height (insertHelper r rc)));
        [rewrite H2|]; lia.
    + destruct (reBalance_avl rc0 l r (1 + Z.max (height l) (height r)))
        as (A & H1 & H2); auto; [lia|].
      split; [exact A|]. rewrite H2; lia.
Qed.

(** The cached invariant gives the balance of the specification, on the
    recomputed heights. *)
Lemma avl_balanced (n : AVLNode) :
  avl n -> height n = IndexedDatabase.calculateHeight n /\ balancedb n = true.
Proof.
  induction n as [|rc l IHl r IHr h]; [auto|].
  intros (Al & Ar & -> & Hb).
  destruct (IHl Al) as [El Bl]. destruct (IHr Ar) as [Er Br].
  cbn [height IndexedDatabase.calculateHeight balancedb].
  rewrite <- El, <- Er, Bl, Br. split; [reflexivity|].
  rewrite !andb_true_r. apply Z.leb_le. lia.
Qed.

(** Insertions alone keep every node balanced: the imbalance of C1 needs a
    deletion. *)
Lemma insert_only_balanced (rcs : list DbRecord) :
  balancedb (root (fold_left insert rcs AVLTree_new)) = true.
Proof.
  enough (H : forall t, avl (root t) -> avl (root (fold_left insert rcs t)))
    by (apply avl_balanced, H; exact I).
  induction rcs as [|rc rcs IH]; intros t A; simpl; [exact A|].
  apply IH. rewrite root_insert. now apply insertHelper_avl.
Qed.

(** ** The range query on inverted bounds *)

Lemma rangeQuery_inverted (db : IndexedDatabase.t) (start end_ : Z) :
  end_ < start -> IndexedDatabase.rangeQuery db start end_ = [].
Proof.
  intros H. unfold IndexedDatabase.rangeQuery. rewrite rangeQueryHelper_acc.
  cbn [app].
  destruct (spec_traversal (root (IndexedDatabase.index db)) start end_)
    as [|rc rest] eqn:E; [reflexivity|].
  assert (Hin : In rc (spec_traversal (root (IndexedDatabase.index db)) start end_))
    by (rewrite E; now left).
  apply spec_traversal_In in Hin as (_ & _ & _ & Hv). lia.
Qed.

(** ** The end-to-end scenarios of the specification, run on the embedding *)

Example scenario_skewed_insertion :
  let db := run letters_ops IndexedDatabase.new in
  IndexedDatabase.getTreeHeight db = 3 /\
  map key (inorder (root (IndexedDatabase.index db)))
    = ["a"; "b"; "c"; "d"; "e"; "f"; "g"]%string.
Proof. split; reflexivity. Qed.

Example scenario_delete_two_children :
  let db := run (family_ops ++ [OpDelete "m" 10]) IndexedDatabase.new in
  fst (IndexedDatabase.search db "m" 10) = dangling sentinel /\
  map key (inorder (root (IndexedDatabase.index db)))
    = ["c"; "f"; "h"; "p"; "t"; "z"]%string /\
  balancedb (root (IndexedDatabase.index db)) = true.
Proof. repeat split; reflexivity. Qed.

Example scenario_value_mismatch :
  let db := run [OpInsert (rec_ "k" 7)] IndexedDatabase.new in
  let db' := IndexedDatabase.deleteRecord db "k" 9 in
  db' = db /\ fst (IndexedDatabase.search db' "k" 7) = stored (rec_ "k" 7).
Proof. split; reflexivity. Qed.

Example scenario_range_query :
  let db := run values_ops IndexedDatabase.new in
  map value (IndexedDatabase.rangeQuery db 2 4) = [2; 3; 4] /\
  IndexedDatabase.rangeQuery db 5 2 = [].
Proof. split; reflexivity. Qed.

Example scenario_clear_then_reuse :
  let db := run (abc_ops ++ [OpClear; OpInsert (rec_ "x" 1); OpInsert (rec_ "y" 2)])
                IndexedDatabase.new in
  IndexedDatabase.getTreeHeight db = 2 /\
  fst (IndexedDatabase.search db "x" 1) = stored (rec_ "x" 1) /\
  fst (IndexedDatabase.search db "y" 2) = stored (rec_ "y" 2).
Proof. repeat split; reflexivity. Qed.

(** * The claims *)

Local Open Scope string_scope.

(** C1 (the code departs from the claim).  Height balance after every call
    sequence: [deleteNode] rebalances at the root only.  After inserting
    d, b, f, a, e, h, i (a balanced tree) and deleting e, the node f below
    the root has an empty left subtree and a right subtree of height 2, so
    the balance invariant fails in a reachable state, on the recomputed
    heights and on the cached ones. *)
Theorem deleteNode_leaves_unbalanced_node :
  let db := run skewed_ops IndexedDatabase.new in
  let db' := IndexedDatabase.deleteRecord db "e" 5 in
  reachable db' /\
  balancedb (root (IndexedDatabase.index db)) = true /\
  balancedb (root (IndexedDatabase.index db')) = false /\
  cached_balancedb (root (IndexedDatabase.index db')) = false /\
  deref (root (IndexedDatabase.index db')) [R] =
    Node (rec_ "f" 6) nullptr
         (Node (rec_ "h" 8) nullptr (Node (rec_ "i" 9) nullptr nullptr 1) 2) 3.
Proof.
  cbv zeta. split; [|repeat split; vm_compute; reflexivity].
  apply (reachable_step _ (OpDelete "e" 5)). apply run_reachable. constructor.
Qed.

(** C2, as stated, fails: a stored record whose value lies in the range is
    not returned.  With ("b",0) at the root and ("a",5) to its left,
    [rangeQuery(3,7)] prunes the left subtree because 0 > 3 is false. *)
Lemma rangeQuery_misses_in_range_record :
  let db := run [OpInsert (rec_ "b" 0); OpInsert (rec_ "a" 5)] IndexedDatabase.new in
  reachable db /\
  In (rec_ "a" 5) (inorder (root (IndexedDatabase.index db))) /\
  3 <= value (rec_ "a" 5) <= 7 /\
  IndexedDatabase.rangeQuery db 3 7 = [] /\
  ~ In (rec_ "a" 5) (IndexedDatabase.rangeQuery db 3 7).
Proof.
  cbv zeta. split; [apply run_reachable; constructor|].
  split; [vm_compute; auto|]. split; [simpl; lia|].
  split; [reflexivity|]. intros H; exact H.
Qed.

(** C2, amended.  [rangeQuery(start, end)] returns exactly the stored records
    with [start <= value <= end] that the pruning traversal reaches: those at
    the end of a path from the root on which every node left by its left link
    has [value > start] and every node left by its right link has
    [value < end]. *)
Theorem rangeQuery_returns_unpruned_records (db : IndexedDatabase.t)
    (start end_ : Z) (rc : DbRecord) :
  In rc (IndexedDatabase.rangeQuery db start end_) <->
  exists p, record_at (root (IndexedDatabase.index db)) p = Some rc /\
            unpruned (root (IndexedDatabase.index db)) start end_ p = true /\
            start <= value rc <= end_.
Proof.
  unfold IndexedDatabase.rangeQuery. rewrite rangeQueryHelper_acc. cbn [app].
  apply spec_traversal_In.
Qed.

(** C3.  In every reachable state, [deleteNode(key, value)] takes out the one
    node whose record has that key and that value, every other record staying
    in place, and decrements [nodeCount]; when no stored record has both, the
    tree and [nodeCount] are unchanged. *)
Theorem deleteNode_removes_matching_node (db : IndexedDatabase.t) (k : string) (v : Z) :
  reachable db ->
  let t := IndexedDatabase.index db in
  let t' := deleteNode t k v in
  (In (mkRecord k v) (inorder (root t)) ->
     removed (mkRecord k v) t t' /\
     countNodes (root t') = countNodes (root t) - 1 /\
     ~ In (mkRecord k v) (inorder (root t'))) /\
  (~ In (mkRecord k v) (inorder (root t)) -> t' = t).
Proof.
  intros Hr t t'. pose proof (reachable_bst _ Hr) as B. split.
  - intros Hin. pose proof (deleteNode_present t k v B Hin) as H.
    repeat split; [exact H|eapply removed_countNodes|eapply removed_not_In]; eauto.
  - apply deleteNode_absent.
Qed.

Lemma deleteNode_removes_matching_node_witness :
  reachable abc_db /\
  removed (rec_ "a" 1) (IndexedDatabase.index abc_db)
          (deleteNode (IndexedDatabase.index abc_db) "a" 1) /\
  deleteNode (IndexedDatabase.index abc_db) "a" 2 = IndexedDatabase.index abc_db.
Proof.
  assert (Hr : reachable abc_db) by (apply run_reachable; constructor).
  split; [exact Hr|].
  destruct (deleteNode_removes_matching_node abc_db "a" 1 Hr) as [H1 _].
  destruct (deleteNode_removes_matching_node abc_db "a" 2 Hr) as [_ H2].
  split.
  - apply H1. vm_compute. auto.
  - apply H2. vm_compute. intros [H|[H|[H|[]]]]; discriminate H.
Defined.

(** C4, as stated, fails: a record whose key a node already carries is not
    placed in the tree.  After [insert(("a",1))], [insert(("a",2))] leaves
    the single node ("a",1); nothing goes right. *)
Lemma insert_duplicate_key_not_placed :
  let db := run [OpInsert (rec_ "a" 1)] IndexedDatabase.new in
  let t' := insert (IndexedDatabase.index db) (rec_ "a" 2) in
  reachable db /\
  In (rec_ "a" 1) (inorder (root (IndexedDatabase.index db))) /\
  inorder (root t') = [rec_ "a" 1] /\
  deref (root t') [R] = nullptr /\
  ~ In (rec_ "a" 2) (inorder (root t')).
Proof.
  cbv zeta. split; [apply run_reachable; constructor|].
  split; [vm_compute; auto|]. split; [reflexivity|]. split; [reflexivity|].
  vm_compute. intros [H|[]]; discriminate H.
Qed.

(** C4, amended.  When [insert] is called with a record whose key is the key
    of an existing node, the descent takes neither branch and no node is
    created: the stored records are unchanged, the keys stay strictly
    increasing (no two nodes share a key), and [search] for that key returns
    the record that was already stored. *)
Theorem insert_existing_key_keeps_tree (db : IndexedDatabase.t)
    (rc old : DbRecord) (v : Z) :
  reachable db ->
  In old (inorder (root (IndexedDatabase.index db))) -> key old = key rc ->
  let t' := insert (IndexedDatabase.index db) rc in
  inorder (root t') = inorder (root (IndexedDatabase.index db)) /\
  bst (root t') /\
  fst (search t' (key rc) v) = stored old.
Proof.
  intros Hr Hin K t'. pose proof (reachable_bst _ Hr) as B.
  destruct (search_insert_existing _ rc old v B Hin K) as [E S].
  repeat split; auto.
  unfold t'. rewrite root_insert. now apply insertHelper_bst.
Qed.

Lemma insert_existing_key_keeps_tree_witness :
  reachable abc_db /\
  inorder (root (insert (IndexedDatabase.index abc_db) (rec_ "b" 7))) =
    inorder (root (IndexedDatabase.index abc_db)) /\
  fst (search (insert (IndexedDatabase.index abc_db) (rec_ "b" 7)) "b" 7)
    = stored (rec_ "b" 2).
Proof.
  assert (Hr : reachable abc_db) by (apply run_reachable; constructor).
  split; [exact Hr|].
  assert (Hin : In (rec_ "b" 2) (inorder (root (IndexedDatabase.index abc_db))))
    by (vm_compute; auto).
  destruct (insert_existing_key_keeps_tree abc_db (rec_ "b" 7) (rec_ "b" 2) 7
              Hr Hin eq_refl) as (H1 & _ & H3).
  split; [exact H1|exact H3].
Defined.

(** C5 (the code departs from the claim).  For a key that no stored record
    carries, [search] leaves the tree as it was, but what it returns is not
    a sentinel record: it is the address of the [Record("", 0)] local to the
    block of the miss, which is destroyed before [search] returns, so that
    nothing can be read through the pointer.  So it is for the key "z" after
    inserting a, b, c, and for every key that no stored record carries. *)
Theorem search_absent_key_dangling :
  search (IndexedDatabase.index abc_db) "z" 3
    = (dangling (mkRecord "" 0), IndexedDatabase.index abc_db) /\
  read (fst (search (IndexedDatabase.index abc_db) "z" 3)) = None /\
  (forall t k v, key_absent k (root t) ->
     search t k v = (dangling sentinel, t) /\ read (fst (search t k v)) = None).
Proof.
  split; [reflexivity|]. split; [reflexivity|].
  intros t k v A. unfold search. rewrite (searchHelper_absent _ _ _ A). auto.
Qed.

(** C6, as stated, fails: [nodeCount] is not the number of reachable nodes in
    every reachable state.  [insert] of a key that is already stored adds no
    node and still increments [nodeCount]; [clearDatabase] removes every node
    and does not touch [nodeCount]. *)
Lemma nodeCount_exceeds_reachable_nodes :
  let db := run [OpInsert (rec_ "a" 1); OpInsert (rec_ "a" 2)] IndexedDatabase.new in
  let db' := run [OpClear] abc_db in
  reachable db /\
  nodeCount (IndexedDatabase.index db) = 2 /\
  countNodes (root (IndexedDatabase.index db)) = 1 /\
  reachable db' /\
  nodeCount (IndexedDatabase.index db') = 3 /\
  countNodes (root (IndexedDatabase.index db')) = 0.
Proof.
  cbv zeta. repeat split; try reflexivity;
    repeat apply run_reachable; constructor.
Qed.

(** C6, amended.  In every state reached from a new database by [insert]
    calls whose key is not stored yet and by [deleteNode] calls, [nodeCount]
    equals the number of nodes reachable from [root]; there, an [insert] of a
    key not stored yet adds exactly one node and increments [nodeCount], a
    [deleteNode] that matches a stored record removes exactly one node and
    decrements it, and a [deleteNode] that matches none changes nothing. *)
Theorem nodeCount_counts_reachable_nodes (db : IndexedDatabase.t) :
  counted db ->
  let t := IndexedDatabase.index db in
  nodeCount t = countNodes (root t) /\
  (forall rc, key_absent (key rc) (root t) ->
     countNodes (root (insert t rc)) = countNodes (root t) + 1 /\
     nodeCount (insert t rc) = nodeCount t + 1) /\
  (forall k v, In (mkRecord k v) (inorder (root t)) ->
     countNodes (root (deleteNode t k v)) = countNodes (root t) - 1 /\
     nodeCount (deleteNode t k v) = nodeCount t - 1) /\
  (forall k v, ~ In (mkRecord k v) (inorder (root t)) -> deleteNode t k v = t).
Proof.
  intros Hc t. pose proof (counted_nodeCount _ Hc) as Inv. fold t in Inv.
  pose proof (reachable_bst _ (counted_reachable _ Hc)) as B. fold t in B.
  split; [exact Inv|]. split; [|split].
  - intros rc A.
    pose proof (counted_nodeCount _ (counted_insert db rc Hc A)) as Inv'.
    cbn in Inv'. fold t in Inv'. rewrite nodeCount_insert in *. lia.
  - intros k v Hin.
    pose proof (counted_nodeCount _ (counted_delete db k v Hc)) as Inv'.
    cbn in Inv'. fold t in Inv'.
    destruct (deleteNode_present t k v B Hin) as (_ & _ & _ & _ & E & _).
    rewrite E in *. lia.
  - intros k v. apply deleteNode_absent.
Qed.

Lemma nodeCount_counts_reachable_nodes_witness :
  counted abc_db /\
  nodeCount (IndexedDatabase.index abc_db) =
    countNodes (root (IndexedDatabase.index abc_db)).
Proof.
  assert (Hc : counted abc_db).
  { unfold abc_db, abc_ops, run, fold_left, step.
    repeat (apply counted_insert;
            [|intros x H; vm_compute in H;
              repeat (destruct H as [<-|H]; [simpl; discriminate|]);
              destruct H]).
    apply counted_new. }
  split; [exact Hc|].
  exact (proj1 (nodeCount_counts_reachable_nodes abc_db Hc)).
Defined.

(** C7 (the code departs from the claim).  The counter that
    [getSearchComparisons] returns is never written by [search]: after
    inserting a, b, c, a search for c visits two nodes and evaluates four
    key comparisons, and the counter is 1, the value the first [insert]
    (into the empty tree) gave it. *)
Theorem search_leaves_comparison_counter :
  let db1 := IndexedDatabase.insert IndexedDatabase.new (rec_ "a" 1) in
  getLastSearchComparisons (IndexedDatabase.index IndexedDatabase.new) = 0 /\
  getLastSearchComparisons (IndexedDatabase.index db1) = 1 /\
  fst (IndexedDatabase.getSearchComparisons abc_db "c" 3) = 1 /\
  searchHelper_visited (root (IndexedDatabase.index abc_db)) "c" = 2 /\
  searchHelper_comparisons (root (IndexedDatabase.index abc_db)) "c" = 4 /\
  (forall db k v,
     IndexedDatabase.getSearchComparisons db k v =
       (searchComparisonCount (IndexedDatabase.index db), db)).
Proof.
  cbv zeta. repeat split; try reflexivity.
  intros [t] k v.
  unfold IndexedDatabase.getSearchComparisons, IndexedDatabase.search, search.
  cbn [IndexedDatabase.index].
  destruct (searchHelper (root t) k v) as [p|]; [|reflexivity].
  destruct (record_at (root t) p); reflexivity.
Qed.

(** C8.  [rangeQuery] collects exactly what the decision rule of the
    specification collects: nothing for an absent node; at a node, the left
    subtree iff [value > start], then the record iff [start <= value <= end],
    then the right subtree iff [value < end]; and [rangeQueryHelper] appends
    that to the result it was given. *)
Theorem rangeQuery_decision_rule (db : IndexedDatabase.t) (start end_ : Z) :
  IndexedDatabase.rangeQuery db start end_ =
    spec_traversal (root (IndexedDatabase.index db)) start end_ /\
  (forall node result,
     IndexedDatabase.rangeQueryHelper node start end_ result =
       (result ++ spec_traversal node start end_)%list).
Proof.
  split.
  - unfold IndexedDatabase.rangeQuery. now rewrite rangeQueryHelper_acc.
  - intros node result. apply rangeQueryHelper_acc.
Qed.

(** C9, as stated, fails: after [insert(("a",1))], the call [insert(("a",2))]
    followed by a search for "a" returns the stored record with value 1, not
    the value inserted. *)
Lemma insert_search_returns_older_value :
  let db := run [OpInsert (rec_ "a" 1)] IndexedDatabase.new in
  let found := fst (search (insert (IndexedDatabase.index db) (rec_ "a" 2)) "a" 2) in
  reachable db /\
  found = stored (rec_ "a" 1) /\
  found <> stored (rec_ "a" 2) /\
  value (rec_ "a" 1) <> value (rec_ "a" 2).
Proof.
  cbv zeta. split; [apply run_reachable; constructor|].
  split; [reflexivity|]. split; vm_compute; discriminate.
Qed.

(** C9, amended.  In every reachable state, [insert(r)] followed by a search
    for the key of [r] returns a stored record with that key; it is [r] itself
    (the value inserted) when the key was not stored before, and the record
    that was already stored under that key otherwise. *)
Theorem insert_then_search (db : IndexedDatabase.t) (rc : DbRecord) (v : Z) :
  reachable db ->
  let t := IndexedDatabase.index db in
  let found := fst (search (insert t rc) (key rc) v) in
  (exists x, found = stored x /\ key x = key rc) /\
  (key_absent (key rc) (root t) -> found = stored rc) /\
  (forall old, In old (inorder (root t)) -> key old = key rc ->
               found = stored old).
Proof.
  intros Hr t found. pose proof (reachable_bst _ Hr) as B. fold t in B.
  assert (Hold : forall old, In old (inorder (root t)) -> key old = key rc ->
                             found = stored old).
  { intros old Hin K. now apply search_insert_existing. }
  assert (Hnew : key_absent (key rc) (root t) -> found = stored rc).
  { intros A. now apply search_insert_fresh. }
  split; [|split; assumption].
  destruct (searchHelper (root t) (key rc) v) as [p|] eqn:S.
  - apply searchHelper_record in S as (old & _ & K & Hin).
    exists old. split; [now apply Hold|exact K].
  - exists rc. split; [|reflexivity].
    exact (Hnew (searchHelper_none_absent _ _ _ B S)).
Qed.

Lemma insert_then_search_witness :
  reachable abc_db /\
  fst (search (insert (IndexedDatabase.index abc_db) (rec_ "d" 4)) "d" 4)
    = stored (rec_ "d" 4).
Proof.
  assert (Hr : reachable abc_db) by (apply run_reachable; constructor).
  split; [exact Hr|].
  destruct (insert_then_search abc_db (rec_ "d" 4) 4 Hr) as (_ & H & _).
  apply H. intros x Hx. vm_compute in Hx.
  destruct Hx as [<-|[<-|[<-|[]]]]; discriminate.
Defined.

(** C10.  [clearDatabase] leaves [root] absent, so that no record is stored,
    and [nodeCount] at the value it had: after three insertions and a clear
    it is still 3. *)
Theorem clearDatabase_keeps_nodeCount (db : IndexedDatabase.t) :
  let db' := IndexedDatabase.clearDatabase db in
  root (IndexedDatabase.index db') = nullptr /\
  inorder (root (IndexedDatabase.index db')) = [] /\
  nodeCount (IndexedDatabase.index db') = nodeCount (IndexedDatabase.index db) /\
  nodeCount (IndexedDatabase.index (IndexedDatabase.clearDatabase abc_db)) = 3.
Proof. cbv zeta. repeat split. Qed.

(** * Further properties of the code *)

Local Close Scope string_scope.

(** ** Rotations and rebalancing *)

(** X1.  [rotateRight] and [rotateLeft] keep the records and their symmetric
    order, hence the number of nodes and the search-tree order, whatever the
    cached heights are. *)
Theorem rotations_keep_records (n : AVLNode) :
  inorder (rotateRight n) = inorder n /\
  inorder (rotateLeft n) = inorder n /\
  countNodes (rotateRight n) = countNodes n /\
  countNodes (rotateLeft n) = countNodes n /\
  (bst n -> bst (rotateRight n) /\ bst (rotateLeft n)).
Proof.
  pose proof (inorder_rotateRight n) as Hr.
  pose proof (inorder_rotateLeft n) as Hl.
  repeat split; auto.
  - now rewrite !countNodes_length, Hr.
  - now rewrite !countNodes_length, Hl.
  - eapply bst_same_inorder; eauto.
  - eapply bst_same_inorder; eauto.
Qed.

(** X2.  On a node that satisfies the cached AVL invariant, a right rotation
    followed by a left rotation gives the node back when it has a left child,
    and a left rotation followed by a right rotation gives it back when it
    has a right child. *)
Theorem rotations_undo_each_other (n : AVLNode) :
  avl n ->
  (is_null (node_left n) = false -> rotateLeft (rotateRight n) = n) /\
  (is_null (node_right n) = false -> rotateRight (rotateLeft n) = n).
Proof.
  destruct n as [|rc l r h]; [now split|].
  intros (Al & Ar & -> & _). split; intros H.
  - destruct l as [|lrc ll lr lh]; [discriminate|].
    destruct Al as (_ & _ & -> & _). reflexivity.
  - destruct r as [|rrc rl rr rh]; [discriminate|].
    destruct Ar as (_ & _ & -> & _). reflexivity.
Qed.

Lemma rotations_undo_each_other_witness :
  avl (root (IndexedDatabase.index abc_db)) /\
  rotateLeft (rotateRight (root (IndexedDatabase.index abc_db)))
    = root (IndexedDatabase.index abc_db).
Proof.
  assert (A : avl (root (IndexedDatabase.index abc_db)))
    by (cbn; repeat split; lia).
  split; [exact A|].
  exact (proj1 (rotations_undo_each_other _ A) eq_refl).
Defined.

(** X3.  [reBalance] keeps the records and their symmetric order at every
    node, whatever the cached heights are: it never loses, duplicates or
    reorders a record, and it keeps the search-tree order. *)
Theorem reBalance_keeps_records (n : AVLNode) :
  inorder (reBalance n) = inorder n /\
  countNodes (reBalance n) = countNodes n /\
  (bst n -> bst (reBalance n)).
Proof.
  pose proof (inorder_reBalance n) as H. repeat split; auto.
  - now rewrite !countNodes_length, H.
  - eapply bst_same_inorder; eauto.
Qed.

(** X4.  When both subtrees of a node satisfy the cached AVL invariant and
    their heights differ by at most 2, [reBalance] returns a tree that
    satisfies the invariant; its height is the larger child height or one
    more, and one more when no rotation was needed. *)
Theorem reBalance_restores_avl (rc : DbRecord) (l r : AVLNode) (h : Z) :
  avl l -> avl r -> -2 <= height l - height r <= 2 ->
  avl (reBalance (Node rc l r h)) /\
  Z.max (height l) (height r) <= height (reBalance (Node rc l r h))
    <= 1 + Z.max (height l) (height r) /\
  (-1 <= height l - height r <= 1 ->
   height (reBalance (Node rc l r h)) = 1 + Z.max (height l) (height r)).
Proof. apply reBalance_avl. Qed.

Lemma reBalance_restores_avl_witness :
  avl (node_left left_chain) /\ avl nullptr /\
  -2 <= height (node_left left_chain) - height nullptr <= 2 /\
  avl (reBalance left_chain) /\
  balancedb left_chain = false /\ balancedb (reBalance left_chain) = true.
Proof.
  assert (A : avl (node_left left_chain)) by (cbn; repeat split; lia).
  assert (D : -2 <= height (node_left left_chain) - height nullptr <= 2)
    by (cbn; lia).
  split; [exact A|]. split; [exact I|]. split; [exact D|].
  split; [|split; reflexivity].
  exact (proj1 (reBalance_restores_avl (rec_ "c" 3) (node_left left_chain)
                  nullptr 3 A I D)).
Defined.

(** ** Heights *)

Lemma fold_insert_avl (rcs : list DbRecord) (t : AVLTree) :
  avl (root t) -> avl (root (fold_left insert rcs t)).
Proof.
  revert t. induction rcs as [|rc rcs IH]; intros t A; simpl; [exact A|].
  apply IH. rewrite root_insert. now apply insertHelper_avl.
Qed.

Lemma countNodes_nonneg (n : AVLNode) : 0 <= countNodes n.
Proof. rewrite countNodes_length. lia. Qed.

(** A tree that satisfies the AVL invariant and has height [h] holds at least
    [2 ^ (h / 2) - 1] nodes. *)
Lemma avl_height_log (n : AVLNode) :
  avl n -> 2 ^ (height n / 2) <= countNodes n + 1.
Proof.
  induction n as [|rc l IHl r IHr h]; [intros _; cbn; lia|].
  intros (Al & Ar & -> & Hb). cbn [height countNodes].
  specialize (IHl Al). specialize (IHr Ar).
  pose proof (avl_height_nonneg _ Al) as Nl.
  pose proof (avl_height_nonneg _ Ar) as Nr.
  set (m := Z.max (height l) (height r)) in *.
  destruct (Z.eq_dec m 0) as [E|E].
  - rewrite E. change ((1 + 0) / 2) with 0.
    pose proof (countNodes_nonneg l). pose proof (countNodes_nonneg r).
    change (2 ^ 0) with 1. lia.
  - assert (Hm : 1 <= m) by lia.
    replace (1 + m) with ((m - 1) + 1 * 2) by lia.
    rewrite Z.div_add by lia.
    assert (Hk : 0 <= (m - 1) / 2) by (apply Z.div_pos; lia).
    rewrite Z.pow_add_r by lia. change (2 ^ 1) with 2.
    assert (Hl : 2 ^ ((m - 1) / 2) <= 2 ^ (height l / 2)).
    { apply Z.pow_le_mono_r; [lia|]. apply Z.div_le_mono; lia. }
    assert (Hr : 2 ^ ((m - 1) / 2) <= 2 ^ (height r / 2)).
    { apply Z.pow_le_mono_r; [lia|]. apply Z.div_le_mono; lia. }
    lia.
Qed.

(** X5.  [insert] keeps the cached AVL invariant: from a tree that satisfies
    it, the tree after [insert] satisfies it, is balanced on the recomputed
    heights, has a cached root height equal to the recomputed one, and is at
    most one level higher. *)
Theorem insert_keeps_avl (t : AVLTree) (rc : DbRecord) :
  avl (root t) ->
  avl (root (insert t rc)) /\
  height (root t) <= height (root (insert t rc)) <= height (root t) + 1 /\
  balancedb (root (insert t rc)) = true /\
  IndexedDatabase.calculateHeight (root (insert t rc)) = height (root (insert t rc)).
Proof.
  intros A. rewrite root_insert.
  destruct (insertHelper_avl (root t) rc A) as [A' Hh].
  destruct (avl_balanced _ A') as [E B]. auto.
Qed.

Lemma insert_keeps_avl_witness :
  avl (root (IndexedDatabase.index abc_db)) /\
  avl (root (insert (IndexedDatabase.index abc_db) (rec_ "d" 4))).
Proof.
  assert (A : avl (root (IndexedDatabase.index abc_db)))
    by (cbn; repeat split; lia).
  split; [exact A|].
  exact (proj1 (insert_keeps_avl (IndexedDatabase.index abc_db) (rec_ "d" 4) A)).
Defined.

(** X6.  A tree built by insertions alone, from the empty tree, has a height
    that is logarithmic in its number of nodes: [getTreeHeight] returns an
    [h] with [2 ^ (h / 2) <= N + 1], it equals the cached height of the
    root, and every node is balanced. *)
Theorem insert_only_height_logarithmic (rcs : list DbRecord) :
  let t := fold_left insert rcs AVLTree_new in
  2 ^ (IndexedDatabase.getTreeHeight (IndexedDatabase.mk t) / 2)
    <= countNodes (root t) + 1 /\
  IndexedDatabase.getTreeHeight (IndexedDatabase.mk t) = height (root t) /\
  avl (root t).
Proof.
  intros t. assert (A : avl (root t)) by (apply fold_insert_avl; exact I).
  destruct (avl_balanced _ A) as [E _].
  unfold IndexedDatabase.getTreeHeight. cbn [IndexedDatabase.index].
  rewrite <- E. split; [now apply avl_height_log|]. split; [reflexivity|exact A].
Qed.

(** ** Exact search *)

(** X7.  The descent of [searchHelper] visits at most as many nodes as the
    tree is high, and evaluates at most two key comparisons per visited
    node. *)
Theorem search_visits_at_most_height (n : AVLNode) (k : string) :
  0 <= searchHelper_visited n k <= IndexedDatabase.calculateHeight n /\
  searchHelper_visited n k <= searchHelper_comparisons n k
    <= 2 * searchHelper_visited n k.
Proof.
  induction n as [|rc l IHl r IHr h];
    cbn [searchHelper_visited searchHelper_comparisons
         IndexedDatabase.calculateHeight]; [lia|].
  destruct (key_lt k (key rc)); [lia|].
  destruct (key_gt k (key rc)); lia.
Qed.

(** X8.  In every reachable state, [search] on the key of a stored record
    returns that record, whatever [value] argument it is given, and leaves
    the tree as it was. *)
Theorem search_finds_stored_record (db : IndexedDatabase.t) (rc : DbRecord) (v : Z) :
  reachable db ->
  In rc (inorder (root (IndexedDatabase.index db))) ->
  search (IndexedDatabase.index db) (key rc) v
    = (stored rc, IndexedDatabase.index db).
Proof.
  intros Hr Hin. unfold search.
  destruct (searchHelper_complete _ _ v (reachable_bst _ Hr) Hin) as (p & -> & ->).
  reflexivity.
Qed.

Lemma search_finds_stored_record_witness :
  reachable abc_db /\
  search (IndexedDatabase.index abc_db) "c" 99
    = (stored (rec_ "c" 3), IndexedDatabase.index abc_db).
Proof.
  assert (Hr : reachable abc_db) by (apply run_reachable; constructor).
  split; [exact Hr|].
  apply (search_finds_stored_record abc_db (rec_ "c" 3) 99 Hr).
  vm_compute. auto.
Defined.

(** X9.  For every tree, [search] never changes the tree, and the pointer
    it returns is either the record of a node, which then carries the
    requested key, or the dangling pointer of a miss; a record that can be
    read through it is always a stored record with the requested key. *)
Theorem search_returns_stored_or_dangling (t : AVLTree) (k : string) (v : Z) :
  snd (search t k v) = t /\
  (fst (search t k v) = dangling sentinel \/
   exists x, fst (search t k v) = stored x) /\
  (forall x, read (fst (search t k v)) = Some x ->
             In x (inorder (root t)) /\ key x = k).
Proof.
  unfold search.
  destruct (searchHelper (root t) k v) as [p|] eqn:S.
  - apply searchHelper_record in S as (rc & -> & K & Hin).
    split; [reflexivity|]. split; [right; now exists rc|].
    intros x [= <-]. now split.
  - split; [reflexivity|]. split; [now left|]. discriminate.
Qed.

(** ** Invariants of the reachable states *)

Lemma sorted_keys_NoDup (ks : list string) : sorted_keys ks -> NoDup ks.
Proof.
  induction ks as [|k ks IH]; simpl; [constructor|].
  rewrite Forall_forall. intros [H1 H2]. constructor; auto.
  intros Hin. exact (str_lt_irrefl k (H1 k Hin)).
Qed.

Lemma bst_NoDup (n : AVLNode) : bst n -> NoDup (inorder n).
Proof.
  intros B. apply (NoDup_map_inv key). now apply sorted_keys_NoDup.
Qed.

(** X10.  Every state reached by [insert], [deleteRecord] and
    [clearDatabase] is a search tree on the keys: read in symmetric order the
    keys are strictly increasing, so no two nodes carry the same key. *)
Theorem reachable_keys_strictly_increasing (db : IndexedDatabase.t) :
  reachable db ->
  sorted_keys (map key (inorder (root (IndexedDatabase.index db)))) /\
  NoDup (map key (inorder (root (IndexedDatabase.index db)))).
Proof.
  intros Hr. pose proof (reachable_bst _ Hr) as B.
  split; [exact B|now apply sorted_keys_NoDup].
Qed.

Lemma reachable_keys_strictly_increasing_witness :
  reachable (run (family_ops ++ [OpDelete "m" 10]) IndexedDatabase.new) /\
  NoDup (map key (inorder (root (IndexedDatabase.index
           (run (family_ops ++ [OpDelete "m" 10]) IndexedDatabase.new))))).
Proof.
  assert (Hr : reachable (run (family_ops ++ [OpDelete "m" 10]) IndexedDatabase.new))
    by (apply run_reachable; constructor).
  split; [exact Hr|].
  exact (proj2 (reachable_keys_strictly_increasing _ Hr)).
Defined.

Lemma step_nodeCount_bounds (db : IndexedDatabase.t) (op : Op) (n : Z) :
  bst (root (IndexedDatabase.index db)) ->
  0 <= countNodes (root (IndexedDatabase.index db))
    <= nodeCount (IndexedDatabase.index db) ->
  nodeCount (IndexedDatabase.index db) <= n ->
  0 <= countNodes (root (IndexedDatabase.index (step db op)))
    <= nodeCount (IndexedDatabase.index (step db op)) /\
  nodeCount (IndexedDatabase.index (step db op)) <= n + 1.
Proof.
  intros B IH Hn. destruct op as [rc|k v|]; cbn.
  - rewrite nodeCount_insert, root_insert.
    pose proof (countNodes_nonneg (insertHelper (root (IndexedDatabase.index db)) rc)).
    split; [|lia]. split; [assumption|].
    destruct (searchHelper (root (IndexedDatabase.index db)) (key rc) 0) as [p|] eqn:S.
    + rewrite !countNodes_length, (insertHelper_present _ _ _ _ S),
        <- countNodes_length. lia.
    + destruct (insertHelper_absent _ _ _ S) as (l1 & l2 & E1 & E2).
      rewrite countNodes_length in IH. rewrite countNodes_length, E2.
      rewrite E1 in IH. rewrite List.length_app in *. cbn [List.length]. lia.
  - destruct (deleteNode_cases (IndexedDatabase.index db) k v B) as [->|H];
      [lia|].
    pose proof (countNodes_nonneg (root (deleteNode (IndexedDatabase.index db) k v))).
    rewrite (removed_countNodes _ _ _ H) in *.
    destruct H as (_ & _ & _ & _ & -> & _). lia.
  - lia.
Qed.

Lemma run_nodeCount_bounds (ops : list Op) (db : IndexedDatabase.t) (n : Z) :
  reachable db ->
  0 <= countNodes (root (IndexedDatabase.index db))
    <= nodeCount (IndexedDatabase.index db) ->
  nodeCount (IndexedDatabase.index db) <= n ->
  0 <= countNodes (root (IndexedDatabase.index (run ops db)))
    <= nodeCount (IndexedDatabase.index (run ops db)) /\
  nodeCount (IndexedDatabase.index (run ops db)) <= n + Z.of_nat (List.length ops).
Proof.
  revert db n. induction ops as [|op ops IH]; intros db n Hr Hc Hn.
  - cbn. lia.
  - cbn [run fold_left List.length].
    destruct (step_nodeCount_bounds db op n (reachable_bst _ Hr) Hc Hn) as [Hc' Hn'].
    destruct (IH (step db op) (n + 1) (reachable_step db op Hr) Hc' Hn') as [H1 H2].
    split; [exact H1|]. unfold run in H2. lia.
Qed.

(** X17.  On every sequence of at most [INT_MAX] calls made on a new
    database, [nodeCount] is at least the number of nodes of the tree (which
    is not negative) and at most the number of calls made, so that it stays
    within the range of [int]: the counter never under-counts. *)
Theorem nodeCount_never_undercounts (ops : list Op) :
  Z.of_nat (List.length ops) <= INT_MAX ->
  let db := run ops IndexedDatabase.new in
  0 <= countNodes (root (IndexedDatabase.index db))
    <= nodeCount (IndexedDatabase.index db) /\
  nodeCount (IndexedDatabase.index db) <= Z.of_nat (List.length ops) /\
  nodeCount (IndexedDatabase.index db) <= INT_MAX.
Proof.
  intros Hlen db.
  destruct (run_nodeCount_bounds ops IndexedDatabase.new 0 reachable_new)
    as [H1 H2]; cbn; try lia.
  fold db in H1, H2. split; [exact H1|]. split; lia.
Qed.

Lemma nodeCount_never_undercounts_witness :
  Z.of_nat (List.length (abc_ops ++ [OpClear])) <= INT_MAX /\
  countNodes (root (IndexedDatabase.index (run (abc_ops ++ [OpClear]) IndexedDatabase.new)))
    <= nodeCount (IndexedDatabase.index (run (abc_ops ++ [OpClear]) IndexedDatabase.new)).
Proof.
  assert (Hlen : Z.of_nat (List.length (abc_ops ++ [OpClear])) <= INT_MAX)
    by (vm_compute; discriminate).
  split; [exact Hlen|].
  exact (proj2 (proj1 (nodeCount_never_undercounts _ Hlen))).
Defined.

(** ** Insertion and deletion together *)

Lemma NoDup_split_unique (a : DbRecord) (l1 l2 l1' l2' : list DbRecord) :
  NoDup (l1 ++ a :: l2) -> l1 ++ a :: l2 = l1' ++ a :: l2' ->
  l1 = l1' /\ l2 = l2'.
Proof.
  revert l1'. induction l1 as [|x l1 IH]; intros [|y l1'] ND E; simpl in *.
  - injection E as <-. auto.
  - injection E as <- ->. inversion ND as [|? ? Hn _]. exfalso. apply Hn.
    apply in_or_app. right. now left.
  - injection E as -> <-. inversion ND as [|? ? Hn _]. exfalso. apply Hn.
    apply in_or_app. right. now left.
  - injection E as <- E. inversion ND as [|? ? _ ND'].
    destruct (IH l1' ND' E) as [-> ->]. auto.
Qed.

(** X11.  In every reachable state, inserting a record whose key is not
    stored and then deleting it with its key and value gives back the stored
    records, in the same order, and the same [nodeCount]. *)
Theorem insert_then_delete_restores (db : IndexedDatabase.t) (rc : DbRecord) :
  reachable db ->
  key_absent (key rc) (root (IndexedDatabase.index db)) ->
  let t := IndexedDatabase.index db in
  let t' := deleteNode (insert t rc) (key rc) (value rc) in
  inorder (root t') = inorder (root t) /\ nodeCount t' = nodeCount t.
Proof.
  intros Hr A t t'. pose proof (reachable_bst _ Hr) as B. fold t in B, A.
  assert (B' : bst (root (insert t rc)))
    by (rewrite root_insert; now apply insertHelper_bst).
  destruct (insertHelper_absent (root t) rc 0 (searchHelper_absent _ _ 0 A))
    as (l1 & l2 & E1 & E2).
  rewrite <- root_insert in E2.
  assert (Hin : In (mkRecord (key rc) (value rc)) (inorder (root (insert t rc)))).
  { rewrite record_eta, E2. apply in_or_app. right. now left. }
  destruct (deleteNode_present _ _ _ B' Hin) as (l1' & l2' & F1 & F2 & F3 & _).
  fold t' in F2, F3. rewrite record_eta in F1.
  pose proof (bst_NoDup _ B') as ND. rewrite E2 in ND. rewrite E2 in F1.
  destruct (NoDup_split_unique _ _ _ _ _ ND F1) as [<- <-].
  split; [now rewrite F2, E1|]. rewrite F3, nodeCount_insert. lia.
Qed.

Lemma insert_then_delete_restores_witness :
  reachable abc_db /\
  inorder (root (deleteNode (insert (IndexedDatabase.index abc_db) (rec_ "d" 4)) "d" 4))
    = inorder (root (IndexedDatabase.index abc_db)).
Proof.
  assert (Hr : reachable abc_db) by (apply run_reachable; constructor).
  split; [exact Hr|].
  apply (insert_then_delete_restores abc_db (rec_ "d" 4) Hr).
  intros x Hx. vm_compute in Hx.
  destruct Hx as [<-|[<-|[<-|[]]]]; discriminate.
Defined.

(** X12.  In every reachable state, repeating a [deleteNode] call changes
    nothing more: the second call with the same key and value is a no-op. *)
Theorem deleteNode_twice (db : IndexedDatabase.t) (k : string) (v : Z) :
  reachable db ->
  let t := IndexedDatabase.index db in
  deleteNode (deleteNode t k v) k v = deleteNode t k v.
Proof.
  intros Hr t. pose proof (reachable_bst _ Hr) as B. fold t in B.
  destruct (deleteNode_cases t k v B) as [E|H].
  - now rewrite !E.
  - apply deleteNode_absent. eapply removed_not_In; eauto.
Qed.

Lemma deleteNode_twice_witness :
  reachable abc_db /\
  deleteNode (deleteNode (IndexedDatabase.index abc_db) "b" 2) "b" 2
    = deleteNode (IndexedDatabase.index abc_db) "b" 2.
Proof.
  assert (Hr : reachable abc_db) by (apply run_reachable; constructor).
  split; [exact Hr|].
  exact (deleteNode_twice abc_db "b" 2 Hr).
Defined.

(** ** The range query *)

Lemma sorted_values_app (l1 l2 : list Z) :
  sorted_values (l1 ++ l2) <->
  sorted_values l1 /\ sorted_values l2 /\
  (forall a b, In a l1 -> In b l2 -> a < b).
Proof.
  induction l1 as [|x l1 IH]; simpl.
  - intuition.
  - rewrite IH, Forall_app, !Forall_forall. split.
    + intros ((H1 & H2) & H3 & H4 & H5). repeat split; auto.
      intros a b [<-|Ha] Hb; auto.
    + intros ((H1 & H2) & H3 & H4). repeat split; auto.
Qed.

Lemma values_increasing_node (rc : DbRecord) (l r : AVLNode) (h : Z) :
  values_increasing (Node rc l r h) ->
  values_increasing l /\ values_increasing r /\
  (forall x, In x (inorder l) -> value x < value rc) /\
  (forall x, In x (inorder r) -> value rc < value x).
Proof.
  unfold values_increasing. cbn [inorder]. rewrite map_app, sorted_values_app.
  cbn [map sorted_values]. rewrite Forall_forall.
  intros (H1 & (H2 & H3) & H4). repeat split; auto.
  - intros x Hx. apply H4; [now apply in_map|now left].
  - intros x Hx. apply H2. now apply in_map.
Qed.

Lemma filter_none {A : Type} (f : A -> bool) (l : list A) :
  (forall x, In x l -> f x = false) -> filter f l = [].
Proof.
  induction l as [|x l IH]; simpl; [reflexivity|]. intros H.
  rewrite (H x (or_introl eq_refl)). apply IH. intros y Hy. apply H. now right.
Qed.

Lemma spec_traversal_filter (n : AVLNode) (s e : Z) :
  values_increasing n ->
  spec_traversal n s e = filter (in_range s e) (inorder n).
Proof.
  induction n as [|rc l IHl r IHr h]; [reflexivity|].
  intros (Vl & Vr & Hl & Hr)%values_increasing_node.
  cbn [spec_traversal inorder]. rewrite filter_app. cbn [filter].
  rewrite Z.gtb_ltb. fold (in_range s e rc).
  f_equal; [|f_equal].
  - destruct (Z.ltb_spec s (value rc)); [now apply IHl|].
    symmetry. apply filter_none. intros x Hx. specialize (Hl x Hx).
    unfold in_range. apply andb_false_iff. left. apply Z.leb_gt. lia.
  - destruct (in_range s e rc) eqn:E; cbn [app].
    + f_equal. destruct (Z.ltb_spec (value rc) e); [now apply IHr|].
      symmetry. apply filter_none. intros x Hx. specialize (Hr x Hx).
      unfold in_range. apply andb_false_iff. right. apply Z.leb_gt. lia.
    + destruct (Z.ltb_spec (value rc) e); [now apply IHr|].
      symmetry. apply filter_none. intros x Hx. specialize (Hr x Hx).
      unfold in_range. apply andb_false_iff. right. apply Z.leb_gt. lia.
Qed.

(** X13.  When the values grow with the keys (in symmetric order the values
    are strictly increasing), the pruning of [rangeQuery] is sound:
    [rangeQuery(start, end)] returns all the stored records with
    [start <= value <= end], in symmetric order. *)
Theorem rangeQuery_complete_on_increasing_values (db : IndexedDatabase.t)
    (start end_ : Z) :
  values_increasing (root (IndexedDatabase.index db)) ->
  IndexedDatabase.rangeQuery db start end_ =
    filter (in_range start end_) (inorder (root (IndexedDatabase.index db))).
Proof.
  intros V. unfold IndexedDatabase.rangeQuery.
  rewrite rangeQueryHelper_acc. cbn [app]. now apply spec_traversal_filter.
Qed.

Lemma rangeQuery_complete_on_increasing_values_witness :
  values_increasing (root (IndexedDatabase.index (run values_ops IndexedDatabase.new))) /\
  IndexedDatabase.rangeQuery (run values_ops IndexedDatabase.new) 2 4 =
    [rec_ "b" 2; rec_ "c" 3; rec_ "d" 4].
Proof.
  assert (V : values_increasing
                (root (IndexedDatabase.index (run values_ops IndexedDatabase.new)))).
  { cbv. repeat split; repeat constructor. }
  split; [exact V|].
  exact (rangeQuery_complete_on_increasing_values _ 2 4 V).
Defined.

(** X14.  For every tree, [rangeQuery(start, end)] returns only stored
    records whose value lies between [start] and [end], and nothing at all
    when [end < start]. *)
Theorem rangeQuery_returns_only_in_range (db : IndexedDatabase.t) (start end_ : Z) :
  (forall rc, In rc (IndexedDatabase.rangeQuery db start end_) ->
     In rc (inorder (root (IndexedDatabase.index db))) /\
     start <= value rc <= end_) /\
  (end_ < start -> IndexedDatabase.rangeQuery db start end_ = []).
Proof.
  split; [|apply rangeQuery_inverted].
  intros rc. unfold IndexedDatabase.rangeQuery. rewrite rangeQueryHelper_acc.
  cbn [app]. intros (p & Hp & _ & Hv)%spec_traversal_In.
  split; [eapply deref_In; eauto|exact Hv].
Qed.

(** ** Clearing *)

(** X15.  [clearHelper] releases every stored record exactly once: the
    records it releases are the stored records, up to the order of the
    walk, and as many as the tree has nodes. *)
Theorem clearHelper_releases_each_record_once (n : AVLNode) :
  Permutation (IndexedDatabase.clearHelper n) (inorder n) /\
  Z.of_nat (List.length (IndexedDatabase.clearHelper n)) = countNodes n.
Proof.
  assert (P : Permutation (IndexedDatabase.clearHelper n) (inorder n)).
  { induction n as [|rc l IHl r IHr h]; cbn; [constructor|].
    apply Permutation_app; [exact IHl|].
    apply Permutation_sym, Permutation_trans with (inorder r ++ [rc]);
      [apply Permutation_cons_append|].
    apply Permutation_app; [now apply Permutation_sym|reflexivity]. }
  split; [exact P|].
  rewrite countNodes_length. f_equal. now apply Permutation_length.
Qed.

Lemma root_deleteNode (t : AVLTree) (k : string) (v : Z) (c1 c2 : Z) :
  root (deleteNode t k v) = root (deleteNode (mkTree (root t) c1 c2) k v).
Proof.
  rewrite !deleteNode_eq. cbn [root].
  destruct (searchHelper (root t) k v) as [p|]; [|reflexivity].
  destruct (deref (root t) p) as [|rc l r h]; [reflexivity|].
  destruct (negb (value rc =? v)); reflexivity.
Qed.

Lemma step_root (db1 db2 : IndexedDatabase.t) (op : Op) :
  root (IndexedDatabase.index db1) = root (IndexedDatabase.index db2) ->
  root (IndexedDatabase.index (step db1 op)) = root (IndexedDatabase.index (step db2 op)).
Proof.
  intros E. destruct op as [rc|k v|]; cbn.
  - now rewrite !root_insert, E.
  - rewrite (root_deleteNode (IndexedDatabase.index db1) k v 0 0).
    rewrite (root_deleteNode (IndexedDatabase.index db2) k v 0 0).
    now rewrite E.
  - reflexivity.
Qed.

Lemma run_root (ops : list Op) (db1 db2 : IndexedDatabase.t) :
  root (IndexedDatabase.index db1) = root (IndexedDatabase.index db2) ->
  root (IndexedDatabase.index (run ops db1)) = root (IndexedDatabase.index (run ops db2)).
Proof.
  revert db1 db2. induction ops as [|op ops IH]; intros db1 db2 E; simpl; auto.
  apply IH. now apply step_root.
Qed.

Lemma fst_db_search (db : IndexedDatabase.t) (k : string) (v : Z) :
  fst (IndexedDatabase.search db k v) = fst (search (IndexedDatabase.index db) k v).
Proof.
  unfold IndexedDatabase.search.
  now destruct (search (IndexedDatabase.index db) k v).
Qed.

Lemma fst_search_root (t1 t2 : AVLTree) (k : string) (v : Z) :
  root t1 = root t2 -> fst (search t1 k v) = fst (search t2 k v).
Proof.
  intros E. unfold search. rewrite E.
  destruct (searchHelper (root t2) k v) as [p|]; [|reflexivity].
  destruct (record_at (root t2) p); reflexivity.
Qed.

(** X16.  After [clearDatabase] the store behaves like a new one, whatever
    it held: any further sequence of calls builds the same tree, so that
    [search] and [rangeQuery] answer as on a database that was never used
    (only the counters keep their history). *)
Theorem clearDatabase_then_reuse (db : IndexedDatabase.t) (ops : list Op) :
  let db1 := run ops (IndexedDatabase.clearDatabase db) in
  let db2 := run ops IndexedDatabase.new in
  root (IndexedDatabase.index db1) = root (IndexedDatabase.index db2) /\
  (forall k v, fst (IndexedDatabase.search db1 k v) = fst (IndexedDatabase.search db2 k v)) /\
  (forall s e, IndexedDatabase.rangeQuery db1 s e = IndexedDatabase.rangeQuery db2 s e) /\
  IndexedDatabase.getTreeHeight db1 = IndexedDatabase.getTreeHeight db2.
Proof.
  intros db1 db2.
  assert (E : root (IndexedDatabase.index db1) = root (IndexedDatabase.index db2))
    by (apply run_root; reflexivity).
  split; [exact E|]. split; [|split].
  - intros k v. rewrite !fst_db_search. now apply fst_search_root.
  - intros s e. unfold IndexedDatabase.rangeQuery. now rewrite E.
  - unfold IndexedDatabase.getTreeHeight. now rewrite E.
Qed.

(** ** The helpers of [deleteNode] *)

(** X18.  On a node that is not null, [minValueNode] returns the node that
    comes first in symmetric order; that node has no left child, and in a
    search tree its key is less than every other key below the node. *)
Theorem minValueNode_is_first (n : AVLNode) :
  is_null n = false ->
  exists rc r h rest,
    deref n (minValueNode n []) = Node rc nullptr r h /\
    inorder n = rc :: rest /\
    (bst n -> forall x, In x rest -> str_lt (key rc) (key x)).
Proof.
  intros H. destruct (min_path_spec n H) as (rc & r & h & D & Bf).
  rewrite minValueNode_path. cbn [app].
  exists rc, r, h, (inorder r ++ after n (min_path n)).
  assert (E : inorder n = rc :: inorder r ++ after n (min_path n)).
  { rewrite (inorder_deref n (min_path n)), Bf, D. reflexivity. }
  split; [exact D|]. split; [exact E|].
  unfold bst. rewrite E. cbn [map sorted_keys]. rewrite Forall_forall.
  intros [Hs _] x Hx. apply Hs. now apply in_map.
Qed.

Lemma minValueNode_is_first_witness :
  is_null left_chain = false /\
  deref left_chain (minValueNode left_chain []) = AVLNode_new (rec_ "a" 1).
Proof.
  split; [reflexivity|].
  destruct (minValueNode_is_first left_chain eq_refl) as (rc & r & h & rest & D & E & _).
  rewrite D. cbn in E. injection E as <- _.
  cbn in D. injection D as <- <-. reflexivity.
Defined.

(** X19.  In every reachable state, [deleteHelper] called on a node other
    than the root returns the parent of that node; called on the root it
    returns null. *)
Theorem deleteHelper_finds_parent (db : IndexedDatabase.t) (q : ptr) (d : dir)
    (crec : DbRecord) :
  reachable db ->
  record_at (root (IndexedDatabase.index db)) (q ++ [d]) = Some crec ->
  deleteHelper (root (IndexedDatabase.index db)) (q ++ [d]) = Some q /\
  deleteHelper (root (IndexedDatabase.index db)) [] = None.
Proof.
  intros Hr Hrec. pose proof (reachable_bst _ Hr) as B.
  pose proof (bst_descends _ _ _ B Hrec) as Hd.
  split.
  - unfold deleteHelper. rewrite Hrec.
    exact (deleteHelper_loop_parent _ _ q d [] None Hd).
  - unfold deleteHelper.
    destruct (record_at (root (IndexedDatabase.index db)) []) as [rc|]; [|reflexivity].
    now destruct (root (IndexedDatabase.index db)).
Qed.

Lemma deleteHelper_finds_parent_witness :
  reachable (run skewed_ops IndexedDatabase.new) /\
  deleteHelper (root (IndexedDatabase.index (run skewed_ops IndexedDatabase.new)))
               [R; R; R] = Some [R; R].
Proof.
  assert (Hr : reachable (run skewed_ops IndexedDatabase.new))
    by (apply run_reachable; constructor).
  split; [exact Hr|].
  exact (proj1 (deleteHelper_finds_parent _ [R; R] R (rec_ "i" 9) Hr eq_refl)).
Defined.

(** ** More on insertion *)

Lemma reBalance_avl_id (n : AVLNode) : avl n -> reBalance n = n.
Proof.
  destruct n as [|rc l r h]; [reflexivity|].
  intros (_ & _ & -> & Hb). unfold reBalance. cbn [updateHeight getBalance].
  destruct (Z.ltb_spec 1 (height l - height r)); [lia|].
  destruct (Z.ltb_spec (height l - height r) (-1)); [lia|]. reflexivity.
Qed.

Lemma insertHelper_present_avl (t : AVLNode) (rc : DbRecord) (v : Z) (p : ptr) :
  avl t -> searchHelper t (key rc) v = Some p -> insertHelper t rc = t.
Proof.
  revert p. induction t as [|rc0 l IHl r IHr h]; intros p A; [discriminate|].
  pose proof A as (Al & Ar & Eh & Hb).
  cbn [insertHelper searchHelper].
  destruct (key_lt (key rc) (key rc0)).
  - destruct (searchHelper l (key rc) v) as [q|] eqn:S; [|discriminate].
    intros _. rewrite (IHl q Al eq_refl). cbn [updateHeight]. rewrite <- Eh.
    now apply reBalance_avl_id.
  - destruct (key_gt (key rc) (key rc0)).
    + destruct (searchHelper r (key rc) v) as [q|] eqn:S; [|discriminate].
      intros _. rewrite (IHr q Ar eq_refl). cbn [updateHeight]. rewrite <- Eh.
      now apply reBalance_avl_id.
    + intros _. cbn [updateHeight]. rewrite <- Eh. now apply reBalance_avl_id.
Qed.

(** X20.  On a tree that satisfies the cached AVL invariant, [insert] of a
    key that the search finds leaves the tree exactly as it was, shape and
    cached heights included; only [nodeCount] moves, by one. *)
Theorem insert_stored_key_changes_only_nodeCount (t : AVLTree) (rc : DbRecord)
    (v : Z) (p : ptr) :
  avl (root t) -> searchHelper (root t) (key rc) v = Some p ->
  insert t rc = mkTree (root t) (nodeCount t + 1) (searchComparisonCount t).
Proof.
  intros A S. unfold insert.
  rewrite (insertHelper_present_avl _ _ _ _ A S).
  destruct (root t); [discriminate|reflexivity].
Qed.

Lemma insert_stored_key_changes_only_nodeCount_witness :
  avl (root (IndexedDatabase.index abc_db)) /\
  insert (IndexedDatabase.index abc_db) (rec_ "c" 30)
    = mkTree (root (IndexedDatabase.index abc_db)) 4 1.
Proof.
  assert (A : avl (root (IndexedDatabase.index abc_db)))
    by (cbn; repeat split; lia).
  split; [exact A|].
  exact (insert_stored_key_changes_only_nodeCount (IndexedDatabase.index abc_db)
           (rec_ "c" 30) 0 [R] A eq_refl).
Defined.

Lemma insertHelper_In_old (t : AVLNode) (rc x : DbRecord) :
  In x (inorder t) -> In x (inorder (insertHelper t rc)).
Proof.
  destruct (searchHelper t (key rc) 0) as [p|] eqn:E.
  - now rewrite (insertHelper_present _ _ _ _ E).
  - destruct (insertHelper_absent _ _ _ E) as (l1 & l2 & -> & ->).
    rewrite !in_app_iff. simpl. intuition.
Qed.

(** X21.  For every tree, [insert] never loses a stored record, stores no
    record other than the one it is given, and adds at most one node. *)
Theorem insert_keeps_stored_records (t : AVLTree) (rc : DbRecord) :
  (forall x, In x (inorder (root t)) -> In x (inorder (root (insert t rc)))) /\
  (forall x, In x (inorder (root (insert t rc))) ->
             x = rc \/ In x (inorder (root t))) /\
  countNodes (root t) <= countNodes (root (insert t rc)) <= countNodes (root t) + 1.
Proof.
  rewrite root_insert. split; [|split].
  - intros x. apply insertHelper_In_old.
  - intros x. apply insertHelper_In.
  - rewrite !countNodes_length.
    destruct (searchHelper (root t) (key rc) 0) as [p|] eqn:E.
    + rewrite (insertHelper_present _ _ _ _ E). lia.
    + destruct (insertHelper_absent _ _ _ E) as (l1 & l2 & -> & ->).
      rewrite !List.length_app. cbn [List.length]. lia.
Qed.

(** ** Searching after an update *)

(** In search trees the record [search] returns for a key is determined by
    the stored records that carry the key. *)
Lemma search_determined (t1 t2 : AVLTree) (k : string) (v : Z) :
  bst (root t1) -> bst (root t2) ->
  (forall x, key x = k -> In x (inorder (root t1)) <-> In x (inorder (root t2))) ->
  fst (search t1 k v) = fst (search t2 k v).
Proof.
  intros B1 B2 H. unfold search.
  destruct (searchHelper (root t1) k v) as [p|] eqn:S1.
  - apply searchHelper_record in S1 as (x & -> & K & Hin).
    apply (H x K) in Hin.
    destruct (searchHelper_complete _ _ v B2 Hin) as (p2 & S2 & R2).
    rewrite K in S2. now rewrite S2, R2.
  - pose proof (searchHelper_none_absent _ _ _ B1 S1) as A.
    rewrite (searchHelper_absent (root t2) k v); [reflexivity|].
    intros x Hin K. apply (A x); [|exact K]. now apply (H x K).
Qed.

(** X22.  In every reachable state, [insert] and [deleteNode] do not change
    what [search] returns for any other key. *)
Theorem search_other_key_unaffected (db : IndexedDatabase.t) (rc : DbRecord)
    (k k0 : string) (v v0 : Z) :
  reachable db ->
  let t := IndexedDatabase.index db in
  (k <> key rc -> fst (search (insert t rc) k v) = fst (search t k v)) /\
  (k <> k0 -> fst (search (deleteNode t k0 v0) k v) = fst (search t k v)).
Proof.
  intros Hr t. pose proof (reachable_bst _ Hr) as B. fold t in B. split; intros Hk.
  - apply search_determined; auto.
    + rewrite root_insert. now apply insertHelper_bst.
    + intros x K. rewrite root_insert. split.
      * intros [->|Hin]%insertHelper_In; [congruence|exact Hin].
      * apply insertHelper_In_old.
  - destruct (deleteNode_cases t k0 v0 B) as [->|H]; [reflexivity|].
    apply search_determined; auto.
    + eapply removed_bst; eauto.
    + destruct H as (l1 & l2 & E1 & E2 & _). intros x K.
      rewrite E1, E2, !in_app_iff. cbn [In]. split; [tauto|].
      intros [H|[<-|H]]; auto. cbn in K. congruence.
Qed.

Lemma search_other_key_unaffected_witness :
  reachable abc_db /\
  fst (search (insert (IndexedDatabase.index abc_db) (rec_ "d" 4)) "a" 0)
    = stored (rec_ "a" 1) /\
  fst (search (deleteNode (IndexedDatabase.index abc_db) "b" 2) "a" 0)
    = stored (rec_ "a" 1).
Proof.
  assert (Hr : reachable abc_db) by (apply run_reachable; constructor).
  split; [exact Hr|].
  destruct (search_other_key_unaffected abc_db (rec_ "d" 4) "a" "b" 0 2 Hr)
    as [H1 H2].
  split.
  - rewrite H1; [reflexivity|discriminate].
  - rewrite H2; [reflexivity|discriminate].
Defined.

(** ** The order of insertions *)

Lemma sorted_keys_ext (l1 l2 : list DbRecord) :
  sorted_keys (map key l1) -> sorted_keys (map key l2) ->
  (forall x, In x l1 <-> In x l2) -> l1 = l2.
Proof.
  revert l2. induction l1 as [|a l1 IH]; intros [|b l2] S1 S2 H.
  - reflexivity.
  - destruct (proj2 (H b) (or_introl eq_refl)).
  - destruct (proj1 (H a) (or_introl eq_refl)).
  - cbn [map sorted_keys] in S1, S2. rewrite Forall_forall in S1, S2.
    destruct S1 as [F1 S1]. destruct S2 as [F2 S2].
    assert (Fa : forall x, In x l1 -> str_lt (key a) (key x))
      by (intros x Hx; apply F1; now apply in_map).
    assert (Fb : forall x, In x l2 -> str_lt (key b) (key x))
      by (intros x Hx; apply F2; now apply in_map).
    assert (E : a = b).
    { destruct (proj1 (H a) (or_introl eq_refl)) as [E|Ha]; [now symmetry|].
      destruct (proj2 (H b) (or_introl eq_refl)) as [E|Hb]; [exact E|].
      exfalso. apply (str_lt_irrefl (key a)).
      eapply str_lt_trans; [apply (Fa b Hb)|apply (Fb a Ha)]. }
    subst b. f_equal. apply IH; auto.
    intros x. split; intros Hx.
    + destruct (proj1 (H x) (or_intror Hx)) as [<-|Hx']; [|exact Hx'].
      exfalso. exact (str_lt_irrefl _ (Fa _ Hx)).
    + destruct (proj2 (H x) (or_intror Hx)) as [<-|Hx']; [|exact Hx'].
      exfalso. exact (str_lt_irrefl _ (Fb _ Hx)).
Qed.

Lemma insertHelper_In_iff (t : AVLNode) (rc x : DbRecord) :
  bst t ->
  In x (inorder (insertHelper t rc)) <->
  In x (inorder t) \/ (x = rc /\ key_absent (key rc) t).
Proof.
  intros B. split.
  - intros Hin. destruct (searchHelper t (key rc) 0) as [p|] eqn:S.
    + left. now rewrite (insertHelper_present _ _ _ _ S) in Hin.
    + apply insertHelper_In in Hin as [->|Hin]; [right|now left].
      split; [reflexivity|]. eapply searchHelper_none_absent; eauto.
  - intros [Hin|[-> A]]; [now apply insertHelper_In_old|].
    destruct (insertHelper_absent _ rc 0 (searchHelper_absent _ _ 0 A))
      as (l1 & l2 & _ & ->).
    apply in_or_app. right. now left.
Qed.

Lemma fold_insert_bst (rcs : list DbRecord) (t : AVLTree) :
  bst (root t) -> bst (root (fold_left insert rcs t)).
Proof.
  revert t. induction rcs as [|rc rcs IH]; intros t B; simpl; [exact B|].
  apply IH. rewrite root_insert. now apply insertHelper_bst.
Qed.

(** The records stored after a sequence of insertions with pairwise distinct
    keys: the records stored before, and the inserted records whose key was
    not stored. *)
Lemma fold_insert_In (rcs : list DbRecord) (t : AVLTree) (x : DbRecord) :
  bst (root t) -> NoDup (map key rcs) ->
  In x (inorder (root (fold_left insert rcs t))) <->
  In x (inorder (root t)) \/ (In x rcs /\ key_absent (key x) (root t)).
Proof.
  revert t. induction rcs as [|a rcs IH]; intros t B ND; simpl.
  - tauto.
  - inversion ND as [|? ? Hn ND']. subst.
    assert (B' : bst (root (insert t a)))
      by (rewrite root_insert; now apply insertHelper_bst).
    rewrite (IH (insert t a) B' ND'), root_insert, (insertHelper_In_iff _ _ _ B).
    split.
    + intros [[H|[-> A]]|[Hin A]]; auto.
      right. split; [now right|].
      intros y Hy. apply (A y). now apply insertHelper_In_old.
    + intros [H|[[->|Hin] A]]; auto.
      right. split; [exact Hin|].
      intros y Hy K.
      apply insertHelper_In in Hy as [->|Hy]; [|exact (A y Hy K)].
      apply Hn. rewrite K. now apply in_map.
Qed.

(** X23.  In every reachable state, inserting records with pairwise distinct
    keys in one order or in another stores the same records in the same
    symmetric order (the shape of the tree may differ), and [search] answers
    alike. *)
Theorem insertion_order_irrelevant (db : IndexedDatabase.t)
    (rcs1 rcs2 : list DbRecord) :
  reachable db -> NoDup (map key rcs1) -> Permutation rcs1 rcs2 ->
  let t1 := fold_left insert rcs1 (IndexedDatabase.index db) in
  let t2 := fold_left insert rcs2 (IndexedDatabase.index db) in
  inorder (root t1) = inorder (root t2) /\
  (forall k v, fst (search t1 k v) = fst (search t2 k v)).
Proof.
  intros Hr ND P t1 t2. pose proof (reachable_bst _ Hr) as B.
  assert (ND2 : NoDup (map key rcs2)).
  { eapply Permutation_NoDup; [|exact ND]. now apply Permutation_map. }
  assert (B1 : bst (root t1)) by now apply fold_insert_bst.
  assert (B2 : bst (root t2)) by now apply fold_insert_bst.
  assert (E : inorder (root t1) = inorder (root t2)).
  { apply sorted_keys_ext; auto. intros x. unfold t1, t2.
    rewrite !fold_insert_In by assumption.
    split; intros [H|[H A]]; auto; right; split; auto.
    - eapply Permutation_in; eauto.
    - eapply Permutation_in; [apply Permutation_sym|]; eauto. }
  split; [exact E|].
  intros k v. apply search_determined; auto. intros x _. now rewrite E.
Qed.

Lemma insertion_order_irrelevant_witness :
  reachable abc_db /\
  inorder (root (fold_left insert [rec_ "x" 7; rec_ "d" 4; rec_ "e" 5]
                           (IndexedDatabase.index abc_db)))
  = inorder (root (fold_left insert [rec_ "e" 5; rec_ "x" 7; rec_ "d" 4]
                             (IndexedDatabase.index abc_db))).
Proof.
  assert (Hr : reachable abc_db) by (apply run_reachable; constructor).
  split; [exact Hr|].
  refine (proj1 (insertion_order_irrelevant abc_db
                   [rec_ "x" 7; rec_ "d" 4; rec_ "e" 5]
                   [rec_ "e" 5; rec_ "x" 7; rec_ "d" 4] Hr _ _)).
  - cbn. repeat constructor; cbn; intuition discriminate.
  - apply Permutation_sym, (Permutation_cons_app [rec_ "x" 7; rec_ "d" 4] []).
    reflexivity.
Defined.

(** X24.  In every reachable state, once [deleteNode] has removed the record
    with a given key and value, no stored record carries that key any more
    and [search] for it misses: it returns no record of the tree, only the
    dangling pointer of a miss, and leaves the tree as it is. *)
Theorem search_after_deleteNode (db : IndexedDatabase.t) (k : string) (v v' : Z) :
  reachable db ->
  In (mkRecord k v) (inorder (root (IndexedDatabase.index db))) ->
  let t' := deleteNode (IndexedDatabase.index db) k v in
  key_absent k (root t') /\
  search t' k v' = (dangling sentinel, t') /\
  read (fst (search t' k v')) = None.
Proof.
  intros Hr Hin t'. pose proof (reachable_bst _ Hr) as B.
  pose proof (deleteNode_present _ k v B Hin) as H. fold t' in H.
  assert (A : key_absent k (root t')).
  { intros x Hx K.
    apply (removed_not_In _ _ _ H B).
    destruct H as (l1 & l2 & E1 & E2 & _).
    assert (Hx' : In x (inorder (root (IndexedDatabase.index db)))).
    { rewrite E1. rewrite E2 in Hx. apply in_app_or in Hx as [Hx|Hx];
        apply in_or_app; [now left|right; now right]. }
    now rewrite <- (sorted_keys_unique _ x (mkRecord k v) B Hx' Hin K). }
  split; [exact A|].
  unfold search. rewrite (searchHelper_absent _ _ _ A). auto.
Qed.

Lemma search_after_deleteNode_witness :
  reachable abc_db /\
  search (deleteNode (IndexedDatabase.index abc_db) "b" 2) "b" 2
    = (dangling sentinel, deleteNode (IndexedDatabase.index abc_db) "b" 2).
Proof.
  assert (Hr : reachable abc_db) by (apply run_reachable; constructor).
  split; [exact Hr|].
  refine (proj1 (proj2 (search_after_deleteNode abc_db "b" 2 2 Hr _))).
  vm_compute. auto.
Defined.
